(** * astroAggregate: chat streaming core

    The provider adapters and the unified generator ([generateChatResponse],
    [streamChatResponse] of [lib/ai]), the stream framer (the [POST] handler of
    the chat route) and the stream reassembler (the read loop of
    [ChatPlayground.handleSubmit]), embedded as Rocq functions, together with
    the JavaScript built-ins these functions call. *)

From Stdlib Require Import List NArith ZArith QArith Lia Bool String Ascii.
Import ListNotations.

Local Open Scope N_scope.

(** ** JavaScript strings

    A JavaScript string is a sequence of UTF-16 code units; a byte array
    ([Uint8Array]) is a sequence of numbers below 256. *)

Definition jsstring := list N.
Definition bytes := list N.

(** The code units of an ASCII literal of the source. *)
Definition lit (s : string) : jsstring :=
  map N_of_ascii (list_ascii_of_string s).

Definition code_unit (c : N) : Prop := c < 0x10000.
Definition js_string (s : jsstring) : Prop := Forall code_unit s.
Definition js_stringb (s : jsstring) : bool := forallb (fun c => c <? 0x10000) s.

Fixpoint jsstring_eqb (a b : jsstring) : bool :=
  match a, b with
  | [], [] => true
  | x :: a', y :: b' => (x =? y) && jsstring_eqb a' b'
  | _, _ => false
  end.

(** [s.startsWith(p)] *)
Fixpoint startsWith (s p : jsstring) {struct p} : bool :=
  match p, s with
  | [], _ => true
  | x :: p', y :: s' => (x =? y) && startsWith s' p'
  | _ :: _, [] => false
  end.

(** [s.slice(n)] for a non-negative [n]. *)
Definition slice (n : nat) (s : jsstring) : jsstring := skipn n s.

(** ** UTF-8 (the Encoding standard)

    [TextEncoder.encode] converts the string to scalar values, a lone
    surrogate becoming U+FFFD, and encodes each one. *)

Module UTF8.

Definition is_high_surrogate (c : N) : bool := (0xD800 <=? c) && (c <=? 0xDBFF).
Definition is_low_surrogate (c : N) : bool := (0xDC00 <=? c) && (c <=? 0xDFFF).
Definition is_surrogate (c : N) : bool := (0xD800 <=? c) && (c <=? 0xDFFF).

Definition REPLACEMENT : N := 0xFFFD.
Definition BOM : N := 0xFEFF.

Definition pair_code_point (hi lo : N) : N :=
  0x10000 + N.shiftl (hi - 0xD800) 10 + (lo - 0xDC00).

Fixpoint to_scalar_values (s : jsstring) : list N :=
  match s with
  | [] => []
  | c :: r =>
      if is_high_surrogate c then
        match r with
        | d :: r' =>
            if is_low_surrogate d
            then pair_code_point c d :: to_scalar_values r'
            else REPLACEMENT :: to_scalar_values r
        | [] => [REPLACEMENT]
        end
      else if is_low_surrogate c then REPLACEMENT :: to_scalar_values r
      else c :: to_scalar_values r
  end.

Definition encode_code_point (cp : N) : bytes :=
  if cp <? 0x80 then [cp]
  else if cp <? 0x800 then
    [N.shiftr cp 6 + 0xC0; N.lor 0x80 (N.land cp 0x3F)]
  else if cp <? 0x10000 then
    [N.shiftr cp 12 + 0xE0;
     N.lor 0x80 (N.land (N.shiftr cp 6) 0x3F);
     N.lor 0x80 (N.land cp 0x3F)]
  else
    [N.shiftr cp 18 + 0xF0;
     N.lor 0x80 (N.land (N.shiftr cp 12) 0x3F);
     N.lor 0x80 (N.land (N.shiftr cp 6) 0x3F);
     N.lor 0x80 (N.land cp 0x3F)].

Definition encode (s : jsstring) : bytes :=
  flat_map encode_code_point (to_scalar_values s).

(** The decoder of the standard: one handler call per byte, state kept
    between calls.  The error mode is "replacement". *)
Record decoder := mkDecoder
  { code_point : N;
    bytes_seen : N;
    bytes_needed : N;
    lower_boundary : N;
    upper_boundary : N }.

Definition initial : decoder := mkDecoder 0 0 0 0x80 0xBF.

(** Step 3 of the handler: no sequence is open. *)
Definition lead (b : N) : decoder * list N :=
  if b <=? 0x7F then (initial, [b])
  else if (0xC2 <=? b) && (b <=? 0xDF) then
    (mkDecoder (N.land b 0x1F) 0 1 0x80 0xBF, [])
  else if (0xE0 <=? b) && (b <=? 0xEF) then
    (mkDecoder (N.land b 0xF) 0 2
       (if b =? 0xE0 then 0xA0 else 0x80)
       (if b =? 0xED then 0x9F else 0xBF), [])
  else if (0xF0 <=? b) && (b <=? 0xF4) then
    (mkDecoder (N.land b 0x7) 0 3
       (if b =? 0xF0 then 0x90 else 0x80)
       (if b =? 0xF4 then 0x8F else 0xBF), [])
  else (initial, [REPLACEMENT]).

(** Steps 3 to 9.  A byte outside the boundaries closes the open sequence
    with an error and is then read again as a lead byte. *)
Definition handler (d : decoder) (b : N) : decoder * list N :=
  if bytes_needed d =? 0 then lead b
  else if negb ((lower_boundary d <=? b) && (b <=? upper_boundary d)) then
    let '(d', out) := lead b in (d', REPLACEMENT :: out)
  else
    let cp := N.lor (N.shiftl (code_point d) 6) (N.land b 0x3F) in
    if bytes_seen d + 1 =? bytes_needed d then (initial, [cp])
    else (mkDecoder cp (bytes_seen d + 1) (bytes_needed d) 0x80 0xBF, []).

Fixpoint run (d : decoder) (bs : bytes) : decoder * list N :=
  match bs with
  | [] => (d, [])
  | b :: r =>
      let '(d1, out1) := handler d b in
      let '(d2, out2) := run d1 r in
      (d2, out1 ++ out2)
  end.

Definition code_units (cp : N) : jsstring :=
  if cp <? 0x10000 then [cp]
  else [0xD800 + N.shiftr (cp - 0x10000) 10;
        0xDC00 + N.land (cp - 0x10000) 0x3FF].

End UTF8.

(** [new TextDecoder()] with [decode(value, {stream: true})]: the UTF-8
    decoder is never flushed, and the first code point is dropped when it is
    the byte order mark. *)
Record TextDecoder := mkTextDecoder
  { utf8_state : UTF8.decoder;
    bom_seen : bool }.

Definition new_TextDecoder : TextDecoder := mkTextDecoder UTF8.initial false.

Fixpoint serialize (seen : bool) (cps : list N) : bool * jsstring :=
  match cps with
  | [] => (seen, [])
  | cp :: r =>
      if negb seen && (cp =? UTF8.BOM) then serialize true r
      else let '(seen', out) := serialize true r in
           (seen', UTF8.code_units cp ++ out)
  end.

Definition decode_stream (d : TextDecoder) (value : bytes)
  : TextDecoder * jsstring :=
  let '(u, cps) := UTF8.run (utf8_state d) value in
  let '(seen, out) := serialize (bom_seen d) cps in
  (mkTextDecoder u seen, out).

(** A Unicode scalar value, and a string without lone surrogates. *)
Definition scalar_value (cp : N) : Prop :=
  cp < 0x110000 /\ UTF8.is_surrogate cp = false.

Inductive well_formed : jsstring -> Prop :=
| wf_nil : well_formed []
| wf_unit c s :
    c < 0x10000 -> UTF8.is_surrogate c = false ->
    well_formed s -> well_formed (c :: s)
| wf_pair hi lo s :
    UTF8.is_high_surrogate hi = true -> UTF8.is_low_surrogate lo = true ->
    well_formed s -> well_formed (hi :: lo :: s).

(** ** JSON (ECMA-262, 25.5) *)

Module JSON.

(** A number keeps its lexeme: its value is an IEEE double, which this
    development never computes with. *)
#[warnings="-register-all"]
Inductive value :=
| JNull
| JBool (b : bool)
| JNumber (lexeme : jsstring)
| JString (s : jsstring)
| JArray (elements : list value)
| JObject (members : list (jsstring * value)).

(** *** [JSON.stringify] of a string and of [{content: chunk}] *)

Definition hex_digit (d : N) : N := if d <? 10 then 48 + d else 87 + d.

(** [\uXXXX], four lower-case hexadecimal digits. *)
Definition UnicodeEscape (c : N) : jsstring :=
  [92; 117;
   hex_digit (N.land (N.shiftr c 12) 0xF);
   hex_digit (N.land (N.shiftr c 8) 0xF);
   hex_digit (N.land (N.shiftr c 4) 0xF);
   hex_digit (N.land c 0xF)].

Definition quote_code_unit (c : N) : jsstring :=
  if c =? 8 then [92; 98]
  else if c =? 9 then [92; 116]
  else if c =? 10 then [92; 110]
  else if c =? 12 then [92; 102]
  else if c =? 13 then [92; 114]
  else if c =? 34 then [92; 34]
  else if c =? 92 then [92; 92]
  else if c <? 0x20 then UnicodeEscape c
  else [c].

(** QuoteJSONString walks the code points of the string: a surrogate pair is
    copied, a lone surrogate is escaped. *)
Fixpoint quote_code_units (s : jsstring) : jsstring :=
  match s with
  | [] => []
  | c :: r =>
      if UTF8.is_high_surrogate c then
        match r with
        | d :: r' =>
            if UTF8.is_low_surrogate d
            then c :: d :: quote_code_units r'
            else UnicodeEscape c ++ quote_code_units r
        | [] => UnicodeEscape c
        end
      else if UTF8.is_low_surrogate c then UnicodeEscape c ++ quote_code_units r
      else quote_code_unit c ++ quote_code_units r
  end.

Definition QuoteJSONString (s : jsstring) : jsstring :=
  34 :: quote_code_units s ++ [34].

(** [JSON.stringify({ content: chunk })] for a string [chunk]. *)
Definition stringify_content (chunk : jsstring) : jsstring :=
  123 :: QuoteJSONString (lit "content") ++ 58 :: QuoteJSONString chunk ++ [125].

(** *** [JSON.parse] *)

Definition is_whitespace (c : N) : bool :=
  (c =? 9) || (c =? 10) || (c =? 13) || (c =? 32).

Fixpoint skip_whitespace (s : jsstring) : jsstring :=
  match s with
  | c :: r => if is_whitespace c then skip_whitespace r else s
  | [] => []
  end.

Definition hex_value (c : N) : option N :=
  if (48 <=? c) && (c <=? 57) then Some (c - 48)
  else if (97 <=? c) && (c <=? 102) then Some (c - 87)
  else if (65 <=? c) && (c <=? 70) then Some (c - 55)
  else None.

Definition hex4 (a b c d : N) : option N :=
  match hex_value a, hex_value b, hex_value c, hex_value d with
  | Some x, Some y, Some z, Some w =>
      Some (N.lor (N.shiftl x 12) (N.lor (N.shiftl y 8) (N.lor (N.shiftl z 4) w)))
  | _, _, _, _ => None
  end.

Definition single_escape (e : N) : option N :=
  if e =? 34 then Some 34
  else if e =? 47 then Some 47
  else if e =? 92 then Some 92
  else if e =? 98 then Some 8
  else if e =? 102 then Some 12
  else if e =? 110 then Some 10
  else if e =? 114 then Some 13
  else if e =? 116 then Some 9
  else None.

Definition cons_char (c : N) (r : option (jsstring * jsstring))
  : option (jsstring * jsstring) :=
  match r with
  | Some (str, rest) => Some (c :: str, rest)
  | None => None
  end.

(** The characters of a string literal after its opening quote, up to and
    including the closing quote; the result is the string value and the
    input that follows. *)
Fixpoint parse_string_characters (s : jsstring) : option (jsstring * jsstring) :=
  match s with
  | [] => None
  | c :: r =>
      if c =? 34 then Some ([], r)
      else if c =? 92 then
        match r with
        | [] => None
        | e :: r1 =>
            if e =? 117 then
              match r1 with
              | h1 :: h2 :: h3 :: h4 :: r2 =>
                  match hex4 h1 h2 h3 h4 with
                  | Some u => cons_char u (parse_string_characters r2)
                  | None => None
                  end
              | _ => None
              end
            else
              match single_escape e with
              | Some u => cons_char u (parse_string_characters r1)
              | None => None
              end
        end
      else if c <? 0x20 then None
      else cons_char c (parse_string_characters r)
  end.

Definition is_digit (c : N) : bool := (48 <=? c) && (c <=? 57).

Fixpoint span_digits (s : jsstring) : jsstring * jsstring :=
  match s with
  | c :: r =>
      if is_digit c
      then let '(ds, rest) := span_digits r in (c :: ds, rest)
      else ([], s)
  | [] => ([], [])
  end.

Definition parse_int (s : jsstring) : option (jsstring * jsstring) :=
  match s with
  | c :: r =>
      if c =? 48 then Some ([c], r)
      else if is_digit c
      then let '(ds, rest) := span_digits r in Some (c :: ds, rest)
      else None
  | [] => None
  end.

Definition parse_fraction (s : jsstring) : option (jsstring * jsstring) :=
  match s with
  | c :: r =>
      if c =? 46 then
        match span_digits r with
        | ([], _) => None
        | (ds, rest) => Some (c :: ds, rest)
        end
      else Some ([], s)
  | [] => Some ([], [])
  end.

Definition parse_exponent (s : jsstring) : option (jsstring * jsstring) :=
  match s with
  | c :: r =>
      if (c =? 101) || (c =? 69) then
        let '(sign, r1) :=
          match r with
          | x :: r' => if (x =? 43) || (x =? 45) then ([x], r') else ([], r)
          | [] => ([], [])
          end in
        match span_digits r1 with
        | ([], _) => None
        | (ds, rest) => Some (c :: sign ++ ds, rest)
        end
      else Some ([], s)
  | [] => Some ([], [])
  end.

Definition parse_number (s : jsstring) : option (jsstring * jsstring) :=
  let '(sign, s1) :=
    match s with
    | c :: r => if c =? 45 then ([c], r) else ([], s)
    | [] => ([], [])
    end in
  match parse_int s1 with
  | None => None
  | Some (i, s2) =>
      match parse_fraction s2 with
      | None => None
      | Some (f, s3) =>
          match parse_exponent s3 with
          | None => None
          | Some (e, s4) => Some (sign ++ i ++ f ++ e, s4)
          end
      end
  end.

Definition parse_literal (word : jsstring) (v : value) (s : jsstring)
  : option (value * jsstring) :=
  if startsWith s word then Some (v, skipn (List.length word) s) else None.

(** One unit of fuel per nested call; [parse] supplies enough of it for the
    whole text. *)
Fixpoint parse_value (fuel : nat) (s : jsstring) {struct fuel}
  : option (value * jsstring) :=
  match fuel with
  | O => None
  | S fuel' =>
      match skip_whitespace s with
      | [] => None
      | c :: r =>
          if c =? 34 then
            match parse_string_characters r with
            | Some (str, rest) => Some (JString str, rest)
            | None => None
            end
          else if c =? 91 then
            match skip_whitespace r with
            | c' :: r' =>
                if c' =? 93 then Some (JArray [], r')
                else parse_elements fuel' [] r
            | [] => None
            end
          else if c =? 123 then
            match skip_whitespace r with
            | c' :: r' =>
                if c' =? 125 then Some (JObject [], r')
                else parse_members fuel' [] r
            | [] => None
            end
          else if c =? 116 then parse_literal (lit "true") (JBool true) (c :: r)
          else if c =? 102 then parse_literal (lit "false") (JBool false) (c :: r)
          else if c =? 110 then parse_literal (lit "null") JNull (c :: r)
          else
            match parse_number (c :: r) with
            | Some (lexeme, rest) => Some (JNumber lexeme, rest)
            | None => None
            end
      end
  end

with parse_elements (fuel : nat) (acc : list value) (s : jsstring) {struct fuel}
  : option (value * jsstring) :=
  match fuel with
  | O => None
  | S fuel' =>
      match parse_value fuel' s with
      | None => None
      | Some (v, r) =>
          match skip_whitespace r with
          | c :: r' =>
              if c =? 44 then parse_elements fuel' (v :: acc) r'
              else if c =? 93 then Some (JArray (rev (v :: acc)), r')
              else None
          | [] => None
          end
      end
  end

with parse_members (fuel : nat) (acc : list (jsstring * value)) (s : jsstring)
  {struct fuel} : option (value * jsstring) :=
  match fuel with
  | O => None
  | S fuel' =>
      match skip_whitespace s with
      | c :: r =>
          if c =? 34 then
            match parse_string_characters r with
            | None => None
            | Some (key, r1) =>
                match skip_whitespace r1 with
                | c1 :: r2 =>
                    if c1 =? 58 then
                      match parse_value fuel' r2 with
                      | None => None
                      | Some (v, r3) =>
                          match skip_whitespace r3 with
                          | c3 :: r4 =>
                              if c3 =? 44
                              then parse_members fuel' ((key, v) :: acc) r4
                              else if c3 =? 125
                              then Some (JObject (rev ((key, v) :: acc)), r4)
                              else None
                          | [] => None
                          end
                      end
                    else None
                | [] => None
                end
            end
          else None
      | [] => None
      end
  end.

(** [JSON.parse(text)]; [None] is the [SyntaxError]. *)
Definition parse (text : jsstring) : option value :=
  match parse_value (2 * List.length text + 2) text with
  | Some (v, rest) =>
      match skip_whitespace rest with
      | [] => Some v
      | _ :: _ => None
      end
  | None => None
  end.

End JSON.

(** ** The chat client ([ChatPlayground])

    [buffer.split(sep)] for a non-empty separator: [skip] counts the code
    units of a separator that was just matched and are still to be passed. *)

Definition cons_to_head (c : N) (parts : list jsstring) : list jsstring :=
  match parts with
  | p :: rest => (c :: p) :: rest
  | [] => [[c]]
  end.

Fixpoint split_from (sep : jsstring) (skip : nat) (s : jsstring)
  : list jsstring :=
  match s with
  | [] => [[]]
  | c :: r =>
      match skip with
      | S k => split_from sep k r
      | O =>
          if startsWith s sep
          then [] :: split_from sep (List.length sep - 1) r
          else cons_to_head c (split_from sep 0 r)
      end
  end.

Definition split (sep s : jsstring) : list jsstring := split_from sep 0 s.

(** The frame terminator, two line feeds. *)
Definition blank_line : jsstring := [10; 10].

(** [s.trim()] is empty: every code unit is white space or a line
    terminator. *)
Definition is_trim_space (c : N) : bool :=
  ((9 <=? c) && (c <=? 13)) || (c =? 32) || (c =? 0xA0) || (c =? 0x1680)
  || ((0x2000 <=? c) && (c <=? 0x200A)) || (c =? 0x2028) || (c =? 0x2029)
  || (c =? 0x202F) || (c =? 0x205F) || (c =? 0x3000) || (c =? 0xFEFF).

Definition trim_is_empty (s : jsstring) : bool := forallb is_trim_space s.

Inductive Role := user | assistant | system.

Record Message := mkMessage
  { role : Role;
    content : jsstring }.

(** What a frame's [content] can be once parsed. *)
Inductive js_value :=
| Undefined
| Parsed (v : JSON.value).

(** Own property lookup on a parsed object: the last member of that name. *)
Definition get_member (key : jsstring) (members : list (jsstring * JSON.value))
  : option JSON.value :=
  fold_left
    (fun found m => if jsstring_eqb (fst m) key then Some (snd m) else found)
    members None.

(** [const { content } = parsed]; [None] is the [TypeError] that
    destructuring [null] raises. *)
Definition destructure_content (parsed : JSON.value) : option js_value :=
  match parsed with
  | JSON.JNull => None
  | JSON.JObject members =>
      Some match get_member (lit "content") members with
           | Some v => Parsed v
           | None => Undefined
           end
  | _ => Some Undefined
  end.

(** [console.error("Error parsing JSON chunk", e)] and
    [console.error("Chat error:", error)]. *)
Inductive console_entry :=
| ErrorParsingJSONChunk
| ChatError.

(** [toast.error] with "You must be logged in to chat.", "Failed to send
    message." and "Something went wrong.". *)
Inductive toast_entry :=
| MustBeLoggedIn
| FailedToSendMessage
| SomethingWentWrong.

(** The component state ([useState]) and what the handler reports.  A state
    setter applies its updater once, as React does outside Strict Mode. *)
Record ClientState := mkClientState
  { messages : list Message;
    input : jsstring;
    isLoading : bool;
    toasts : list toast_entry;
    console : list console_entry }.

Definition setMessages (f : list Message -> list Message) (st : ClientState) :=
  mkClientState (f (messages st)) (input st) (isLoading st) (toasts st) (console st).
Definition setInput (v : jsstring) (st : ClientState) :=
  mkClientState (messages st) v (isLoading st) (toasts st) (console st).
Definition setIsLoading (b : bool) (st : ClientState) :=
  mkClientState (messages st) (input st) b (toasts st) (console st).
Definition toast_error (t : toast_entry) (st : ClientState) :=
  mkClientState (messages st) (input st) (isLoading st) (toasts st ++ [t]) (console st).
Definition console_error (e : console_entry) (st : ClientState) :=
  mkClientState (messages st) (input st) (isLoading st) (toasts st) (console st ++ [e]).

(** The transport as the reader sees it: the chunks, then end of input or
    a rejected read. *)
Inductive stream_end := EndOfInput | ReadError.

Record body_stream := mkBodyStream
  { chunks : list bytes;
    ending : stream_end }.

Inductive fetch_outcome :=
| FetchRejected
| FetchResponse (status : N) (body : option body_stream).

Definition response_ok (status : N) : bool := (200 <=? status) && (status <=? 299).

Section Reassembler.

(** [String(v)] for a number, an array or an object (Number::toString,
    Array.prototype.join, OrdinaryToPrimitive): kept abstract. *)
Variable ToString_other : JSON.value -> jsstring.

(** The string that [lastMsg.content += content] appends. *)
Definition ToString (v : js_value) : jsstring :=
  match v with
  | Undefined => lit "undefined"
  | Parsed (JSON.JString s) => s
  | Parsed JSON.JNull => lit "null"
  | Parsed (JSON.JBool true) => lit "true"
  | Parsed (JSON.JBool false) => lit "false"
  | Parsed other => ToString_other other
  end.

(** The updater passed to [setMessages]: it copies the array and grows the
    content of its last message, the object the state already holds, by
    [text].  The list is never empty when it runs, the assistant message
    having been pushed before the first read. *)
Fixpoint append_to_last (text : jsstring) (prev : list Message) : list Message :=
  match prev with
  | [] => []
  | [lastMsg] => [mkMessage (role lastMsg) (content lastMsg ++ text)]
  | m :: rest => m :: append_to_last text rest
  end.

(** The body of [try { ... } catch (e) { console.error(...) }] for one frame. *)
Definition on_data (data : jsstring) (st : ClientState) : ClientState :=
  match JSON.parse data with
  | None => console_error ErrorParsingJSONChunk st
  | Some parsed =>
      match destructure_content parsed with
      | None => console_error ErrorParsingJSONChunk st
      | Some c => setMessages (append_to_last (ToString c)) st
      end
  end.

(** [for (const line of lines)]: the sentinel leaves the loop. *)
Fixpoint for_lines (lines : list jsstring) (st : ClientState) : ClientState :=
  match lines with
  | [] => st
  | line :: rest =>
      if startsWith line (lit "data: ") then
        let data := slice 6 line in
        if jsstring_eqb data (lit "[DONE]") then st
        else for_lines rest (on_data data st)
      else for_lines rest st
  end.

(** [while (true)]: one iteration per chunk read; returns when [done]. *)
Fixpoint read_loop (values : list bytes) (decoder : TextDecoder)
  (buffer : jsstring) (st : ClientState) : ClientState :=
  match values with
  | [] => st
  | value :: later =>
      let '(decoder', chunk) := decode_stream decoder value in
      let buffer1 := buffer ++ chunk in
      let lines := split blank_line buffer1 in
      let buffer2 := last lines [] in
      read_loop later decoder' buffer2 (for_lines (removelast lines) st)
  end.

(** [catch (error)] of the handler. *)
Definition catch_chat_error (st : ClientState) : ClientState :=
  toast_error SomethingWentWrong (console_error ChatError st).

Definition assistantMessage : Message := mkMessage assistant [].

(** [handleSubmit], given what [fetch] and the response body deliver. *)
Definition handleSubmit (fetch : fetch_outcome) (st : ClientState) : ClientState :=
  if trim_is_empty (input st) || isLoading st then st
  else
    let userMessage := mkMessage user (input st) in
    let st1 :=
      setIsLoading true
        (setInput [] (setMessages (fun prev => prev ++ [userMessage]) st)) in
    let st2 :=
      match fetch with
      | FetchRejected => catch_chat_error st1
      | FetchResponse status body =>
          if negb (response_ok status) then
            setIsLoading false
              (toast_error
                 (if status =? 401 then MustBeLoggedIn else FailedToSendMessage)
                 st1)
          else
            match body with
            | None => catch_chat_error st1
            | Some b =>
                let st3 :=
                  read_loop (chunks b) new_TextDecoder []
                    (setMessages (fun prev => prev ++ [assistantMessage]) st1) in
                match ending b with
                | EndOfInput => st3
                | ReadError => catch_chat_error st3
                end
            end
      end in
    setIsLoading false st2.

End Reassembler.

(** ** The unified generator ([lib/ai]) *)

Definition ChatMessage := Message.

Record GenerationOptions := mkOptions
  { model : option jsstring;
    maxTokens : option N;
    temperature : option Q }.

(** [options?.model || fallback]: an empty model name is falsy too. *)
Definition model_or (options : option GenerationOptions) (fallback : jsstring)
  : jsstring :=
  match options with
  | Some o =>
      match model o with
      | Some (c :: m) => c :: m
      | _ => fallback
      end
  | None => fallback
  end.

(** [const { maxTokens = 1024, temperature = 0.7 } = options || {}] *)
Definition maxTokens_of (options : option GenerationOptions) : N :=
  match options with
  | Some o => match maxTokens o with Some n => n | None => 1024 end
  | None => 1024
  end.

Definition temperature_of (options : option GenerationOptions) : Q :=
  match options with
  | Some o => match temperature o with Some t => t | None => (7 # 10)%Q end
  | None => (7 # 10)%Q
  end.

(** What each adapter hands to its SDK. *)
Record openai_request := mkOpenAI
  { oa_model : jsstring;
    oa_messages : list ChatMessage;
    oa_max_tokens : N;
    oa_temperature : Q;
    oa_stream : bool }.

Record anthropic_request := mkAnthropic
  { an_model : jsstring;
    an_max_tokens : N;
    an_system : option jsstring;
    an_messages : list ChatMessage }.

Inductive gemini_role := gemini_user | gemini_model.

Record gemini_content := mkGemini
  { g_role : gemini_role;
    g_parts : list jsstring }.

Record google_request := mkGoogle
  { g_model : jsstring;
    g_history : list gemini_content;
    g_maxOutputTokens : N;
    g_temperature : Q;
    g_message : jsstring }.

Inductive upstream_call :=
| openai_chat_completions_create (r : openai_request)
| anthropic_messages_create (r : anthropic_request)
| anthropic_messages_stream (r : anthropic_request)
| google_sendMessage (r : google_request)
| google_sendMessageStream (r : google_request).

(** What the SDKs answer. *)
Inductive content_block :=
| text_block (text : jsstring)
| other_block.

Inductive anthropic_delta :=
| text_delta (text : jsstring)
| other_delta.

Inductive anthropic_event :=
| content_block_delta (delta : anthropic_delta)
| other_event.

(** The events a stream delivers, and whether it then fails. *)
Record upstream_stream (A : Type) := mkStream
  { events : list A;
    interrupted : bool }.
Arguments mkStream {A}.
Arguments events {A}.
Arguments interrupted {A}.

(** The three backends; [None] is a rejected request.  An OpenAI response
    or chunk is the list of its choices' [content], [None] where absent. *)
Record Upstream := mkUpstream
  { openai_create : openai_request -> option (list (option jsstring));
    openai_create_stream :
      openai_request -> option (upstream_stream (list (option jsstring)));
    anthropic_create : anthropic_request -> option (list content_block);
    anthropic_stream :
      anthropic_request -> option (upstream_stream anthropic_event);
    google_send : google_request -> option jsstring;
    google_send_stream : google_request -> option (upstream_stream jsstring) }.

(** What is thrown: [new Error(message)], a [TypeError], the failure of an
    upstream request, and the error with which the Gemini SDK rejects a
    chat history. *)
Inductive error :=
| Error (message : jsstring)
| TypeError
| UpstreamError
| GoogleGenerativeAIError.

Inductive completion (A : Type) :=
| Returned (a : A)
| Threw (e : error).
Arguments Returned {A}.
Arguments Threw {A}.

Definition is_system (m : ChatMessage) : bool :=
  match role m with system => true | _ => false end.

(** [messages.find((m) => m.role === "system")?.content] *)
Definition systemMessage_content (messages : list ChatMessage) : option jsstring :=
  option_map content (find is_system messages).

(** [messages.filter((m) => m.role !== "system")] *)
Definition otherMessages (messages : list ChatMessage) : list ChatMessage :=
  filter (fun m => negb (is_system m)) messages.

Definition anthropic_request_of (messages : list ChatMessage)
  (options : option GenerationOptions) : anthropic_request :=
  mkAnthropic (model_or options (lit "claude-3-sonnet-20240229"))
    (maxTokens_of options)
    (systemMessage_content messages)
    (map (fun m => mkMessage (role m) (content m)) (otherMessages messages)).

(** [messages.slice(0, -1).map(...)] *)
Definition gemini_history (messages : list ChatMessage) : list gemini_content :=
  map (fun m =>
         mkGemini (match role m with user => gemini_user | _ => gemini_model end)
           [content m])
    (removelast messages).

(** [model.startChat({ history, generationConfig })] builds the chat session
    in the SDK, which validates the history before anything is sent: the
    first entry must have the role "user".  (Each entry here holds one text
    part, which the SDK admits for both roles.)  [false] is the throw. *)
Definition startChat_accepts (history : list gemini_content) : bool :=
  match history with
  | [] => true
  | first :: _ =>
      match g_role first with
      | gemini_user => true
      | gemini_model => false
      end
  end.

(** [messages[messages.length - 1]], [undefined] on the empty list. *)
Definition lastMessage (messages : list ChatMessage) : option ChatMessage :=
  nth_error messages (List.length messages - 1).

Definition google_request_of (messages : list ChatMessage)
  (options : option GenerationOptions) (lastMsg : ChatMessage) : google_request :=
  mkGoogle (model_or options (lit "gemini-flash-latest"))
    (gemini_history messages)
    (maxTokens_of options) (temperature_of options)
    (content lastMsg).

Definition openai_request_of (messages : list ChatMessage)
  (options : option GenerationOptions) (stream : bool) : openai_request :=
  mkOpenAI (model_or options (lit "gpt-3.5-turbo")) messages
    (maxTokens_of options) (temperature_of options) stream.

Definition Unsupported (provider : jsstring) : error :=
  Error (lit "Unsupported AI provider: " ++ provider).

(** [response.content.find((block) => block.type === "text")] *)
Definition is_text_block (b : content_block) : bool :=
  match b with text_block _ => true | other_block => false end.

Section Generator.

Variable up : Upstream.

(** [generateChatResponse]: the upstream calls made, and the result. *)
Definition generateChatResponse (messages : list ChatMessage)
  (provider : jsstring) (options : option GenerationOptions)
  : list upstream_call * completion jsstring :=
  if jsstring_eqb provider (lit "openai") then
    let r := openai_request_of messages options false in
    ([openai_chat_completions_create r],
     match openai_create up r with
     | None => Threw UpstreamError
     | Some choices =>
         Returned match choices with
                  | Some text :: _ => text
                  | _ => []
                  end
     end)
  else if jsstring_eqb provider (lit "anthropic") then
    let r := anthropic_request_of messages options in
    ([anthropic_messages_create r],
     match anthropic_create up r with
     | None => Threw UpstreamError
     | Some blocks =>
         Returned match find is_text_block blocks with
                  | Some (text_block text) => text
                  | _ => []
                  end
     end)
  else if jsstring_eqb provider (lit "google") then
    if startChat_accepts (gemini_history messages) then
      match lastMessage messages with
      | None => ([], Threw TypeError)
      | Some lastMsg =>
          let r := google_request_of messages options lastMsg in
          ([google_sendMessage r],
           match google_send up r with
           | None => Threw UpstreamError
           | Some text => Returned text
           end)
      end
    else ([], Threw GoogleGenerativeAIError)
  else ([], Threw (Unsupported provider)).

(** What the async generator does when it is drained: the fragments it
    yields, then a return or a throw. *)
Record generated := mkGenerated
  { yielded : list jsstring;
    finish : completion unit }.

Definition finish_of {A : Type} (s : upstream_stream A) : completion unit :=
  if interrupted s then Threw UpstreamError else Returned tt.

(** [const content = chunk.choices[0]?.delta?.content; if (content) yield content] *)
Definition openai_fragment (chunk : list (option jsstring)) : list jsstring :=
  match chunk with
  | Some (c :: text) :: _ => [c :: text]
  | _ => []
  end.

(** [content_block_delta] events with a [text_delta] yield their text. *)
Definition anthropic_fragment (event : anthropic_event) : list jsstring :=
  match event with
  | content_block_delta (text_delta text) => [text]
  | _ => []
  end.

(** [const chunkText = chunk.text(); if (chunkText) yield chunkText] *)
Definition google_fragment (chunkText : jsstring) : list jsstring :=
  match chunkText with
  | [] => []
  | _ :: _ => [chunkText]
  end.

Definition drain {A : Type} (fragment : A -> list jsstring)
  (s : option (upstream_stream A)) : generated :=
  match s with
  | None => mkGenerated [] (Threw UpstreamError)
  | Some s => mkGenerated (flat_map fragment (events s)) (finish_of s)
  end.

(** [streamChatResponse]: the upstream calls made, and the generator. *)
Definition streamChatResponse (messages : list ChatMessage)
  (provider : jsstring) (options : option GenerationOptions)
  : list upstream_call * generated :=
  if jsstring_eqb provider (lit "openai") then
    let r := openai_request_of messages options true in
    ([openai_chat_completions_create r],
     drain openai_fragment (openai_create_stream up r))
  else if jsstring_eqb provider (lit "anthropic") then
    let r := anthropic_request_of messages options in
    ([anthropic_messages_stream r],
     drain anthropic_fragment (anthropic_stream up r))
  else if jsstring_eqb provider (lit "google") then
    if startChat_accepts (gemini_history messages) then
      match lastMessage messages with
      | None => ([], mkGenerated [] (Threw TypeError))
      | Some lastMsg =>
          let r := google_request_of messages options lastMsg in
          ([google_sendMessageStream r],
           drain google_fragment (google_send_stream up r))
      end
    else ([], mkGenerated [] (Threw GoogleGenerativeAIError))
  else ([], mkGenerated [] (Threw (Unsupported provider))).

(** ** The chat route ([POST]) and its framing *)

Definition TextEncoder_encode : jsstring -> bytes := UTF8.encode.

(** [encoder.encode(`data: ${JSON.stringify({ content: chunk })}\n\n`)] *)
Definition frame (chunk : jsstring) : bytes :=
  TextEncoder_encode (lit "data: " ++ JSON.stringify_content chunk ++ blank_line).

(** [encoder.encode("data: [DONE]\n\n")] *)
Definition done_frame : bytes :=
  TextEncoder_encode (lit "data: [DONE]" ++ blank_line).

Inductive controller_end :=
| Closed
| Errored (e : error).

(** [start(controller)]: what is enqueued, and how the stream ends. *)
Definition ReadableStream_start (g : generated) : list bytes * controller_end :=
  match finish g with
  | Returned _ => (map frame (yielded g) ++ [done_frame], Closed)
  | Threw e => (map frame (yielded g), Errored e)
  end.

(** [messages] of the request body is an array, or it is anything else
    ([undefined], [null], a value that [Array.isArray] rejects). *)
Inductive messages_field :=
| NotAnArray
| AnArray (messages : list ChatMessage).

Record RequestBody := mkRequestBody
  { body_messages : messages_field;
    body_provider : option jsstring;
    body_model : option jsstring }.

(** The identity [auth()] resolves, and the body [request.json()] parses
    ([None] when it rejects). *)
Record NextRequest := mkRequest
  { userId : option jsstring;
    json : option RequestBody }.

Inductive http_response :=
| NextResponse_json (error : string) (status : N)
| EventStream (enqueued : list bytes) (ending : controller_end).

Definition POST (request : NextRequest) : list upstream_call * http_response :=
  match userId request with
  | None | Some [] => ([], NextResponse_json "Unauthorized" 401)
  | Some (_ :: _) =>
      match json request with
      | None => ([], NextResponse_json "Internal server error" 500)
      | Some body =>
          let provider :=
            match body_provider body with
            | Some p => p
            | None => lit "openai"
            end in
          match body_messages body with
          | NotAnArray => ([], NextResponse_json "Messages array is required" 400)
          | AnArray messages =>
              let '(calls, g) :=
                streamChatResponse messages provider
                  (Some (mkOptions (body_model body) None None)) in
              let '(enqueued, ending) := ReadableStream_start g in
              (calls, EventStream enqueued ending)
          end
      end
  end.

End Generator.

(** ** Backends used in examples *)

(** Every request is accepted and answered with no text. *)
Definition quiet_upstream : Upstream :=
  mkUpstream
    (fun _ => Some []) (fun _ => Some (mkStream [] false))
    (fun _ => Some []) (fun _ => Some (mkStream [] false))
    (fun _ => Some []) (fun _ => Some (mkStream [] false)).

(** Anthropic answers with two text blocks, streamed as one delta each. *)
Definition two_text_blocks : Upstream :=
  mkUpstream
    (fun _ => Some []) (fun _ => Some (mkStream [] false))
    (fun _ => Some [text_block (lit "Hello "); text_block (lit "world")])
    (fun _ =>
       Some (mkStream
               [other_event;
                content_block_delta (text_delta (lit "Hello "));
                other_event;
                content_block_delta (text_delta (lit "world"));
                other_event]
               false))
    (fun _ => Some []) (fun _ => Some (mkStream [] false)).

(** Anthropic streams an empty text delta before the text. *)
Definition empty_delta_upstream : Upstream :=
  mkUpstream
    (fun _ => Some []) (fun _ => Some (mkStream [] false))
    (fun _ => Some [text_block (lit "Hi")])
    (fun _ =>
       Some (mkStream
               [content_block_delta (text_delta []);
                content_block_delta (text_delta (lit "Hi"))]
               false))
    (fun _ => Some []) (fun _ => Some (mkStream [] false)).

(** The text a backend delivers, in either mode. *)
Definition first_choice (choices : list (option jsstring)) : jsstring :=
  match choices with
  | Some text :: _ => text
  | _ => []
  end.

Definition block_text (b : content_block) : jsstring :=
  match b with
  | text_block text => text
  | other_block => []
  end.

Definition event_text (e : anthropic_event) : jsstring :=
  match e with
  | content_block_delta (text_delta text) => text
  | _ => []
  end.

(** A deterministic backend: asked twice for the same request, once in each
    mode, it delivers the same text, and the stream is not interrupted. *)
Record deterministic (up : Upstream) : Prop := mkDeterministic
  { openai_same_text : forall messages options choices,
      openai_create up (openai_request_of messages options false) = Some choices ->
      exists s,
        openai_create_stream up (openai_request_of messages options true) = Some s
        /\ interrupted s = false
        /\ List.concat (map first_choice (events s)) = first_choice choices;
    anthropic_same_text : forall r blocks,
      anthropic_create up r = Some blocks ->
      exists s,
        anthropic_stream up r = Some s
        /\ interrupted s = false
        /\ List.concat (map event_text (events s)) = List.concat (map block_text blocks);
    google_same_text : forall r text,
      google_send up r = Some text ->
      exists s,
        google_send_stream up r = Some s
        /\ interrupted s = false
        /\ List.concat (events s) = text }.

Definition authorized (body : RequestBody) : NextRequest :=
  mkRequest (Some (lit "user_1")) (Some body).

Definition known_provider (p : jsstring) : Prop :=
  p = lit "openai" \/ p = lit "anthropic" \/ p = lit "google".


(** A printable ASCII code unit. *)
Definition ascii_printable (c : N) : Prop := 0x20 <= c < 0x80.

(** ** The wire format, as text *)

(** The text of one frame and of the terminal frame, and the lines the
    reassembler cuts them into. *)
Definition data_line (chunk : jsstring) : jsstring :=
  lit "data: " ++ JSON.stringify_content chunk.

Definition sentinel_line : jsstring := lit "data: [DONE]".

Definition framed_text (fragments : list jsstring) : jsstring :=
  List.concat (map (fun f => data_line f ++ blank_line) fragments)
  ++ sentinel_line ++ blank_line.

(** The bytes the route enqueues for a generator that returns. *)
Definition framed_bytes (fragments : list jsstring) : bytes :=
  List.concat (map frame fragments ++ [done_frame]).

(** The line is the sentinel frame: the [for] loop leaves at it. *)
Definition is_sentinel (line : jsstring) : bool :=
  startsWith line (lit "data: ") && jsstring_eqb (slice 6 line) (lit "[DONE]").

(** The chunks as the decoder turns them into text, one after the other. *)
Fixpoint decode_chunks (decoder : TextDecoder) (values : list bytes)
  : list jsstring :=
  match values with
  | [] => []
  | value :: later =>
      let '(decoder', chunk) := decode_stream decoder value in
      chunk :: decode_chunks decoder' later
  end.

(** The read loop seen from the decoded text. *)
Fixpoint text_loop (ToString_other : JSON.value -> jsstring)
  (texts : list jsstring) (buffer : jsstring) (st : ClientState) : ClientState :=
  match texts with
  | [] => st
  | chunk :: later =>
      let lines := split blank_line (buffer ++ chunk) in
      text_loop ToString_other later (last lines [])
        (for_lines ToString_other (removelast lines) st)
  end.

(** The client state once the handler has pushed the user message and the
    open assistant message holding [text]. *)
Definition answered (st : ClientState) (text : jsstring) (loading : bool)
  : ClientState :=
  mkClientState
    (messages st ++ [mkMessage user (input st); mkMessage assistant text])
    [] loading (toasts st) (console st).

(** No rendering of numbers, arrays and objects: for examples whose frames
    carry none. *)
Definition no_other (v : JSON.value) : jsstring := [].

(** Fragments with a quote, a line feed, a control character, an emoji (a
    surrogate pair) and a lone surrogate; a client about to submit. *)
Definition example_fragments : list jsstring :=
  [lit "say " ++ [34] ++ lit "hi" ++ [34; 10; 1];
   [0xD83D; 0xDE00];
   [0xD800];
   lit "\ done"].

Definition example_state : ClientState :=
  mkClientState [] (lit "hello") false [] [].

(** The parsed payload has no member named [content]. *)
Definition has_no_content (parsed : JSON.value) : Prop :=
  match parsed with
  | JSON.JObject members => get_member (lit "content") members = None
  | _ => True
  end.

(** The chat history of the messages, all but the last, is one that
    [startChat] accepts: it is empty, or its first message is the user's. *)
Definition history_accepted (messages : list ChatMessage) : Prop :=
  match messages with
  | first :: _ :: _ => role first = user
  | _ => True
  end.

(** ** Views of the upstream calls *)

(** The call the blocking operation makes where the streaming one makes [c]. *)
Definition blocking_counterpart (c : upstream_call) : upstream_call :=
  match c with
  | openai_chat_completions_create r =>
      openai_chat_completions_create
        (mkOpenAI (oa_model r) (oa_messages r) (oa_max_tokens r)
           (oa_temperature r) false)
  | anthropic_messages_stream r => anthropic_messages_create r
  | google_sendMessageStream r => google_sendMessage r
  | other => other
  end.

Definition is_streaming_call (c : upstream_call) : bool :=
  match c with
  | openai_chat_completions_create r => oa_stream r
  | anthropic_messages_stream _ => true
  | google_sendMessageStream _ => true
  | _ => false
  end.

Definition call_max_tokens (c : upstream_call) : N :=
  match c with
  | openai_chat_completions_create r => oa_max_tokens r
  | anthropic_messages_create r | anthropic_messages_stream r => an_max_tokens r
  | google_sendMessage r | google_sendMessageStream r => g_maxOutputTokens r
  end.

(** The temperature sent upstream; the anthropic request carries none. *)
Definition call_temperature (c : upstream_call) : option Q :=
  match c with
  | openai_chat_completions_create r => Some (oa_temperature r)
  | anthropic_messages_create _ | anthropic_messages_stream _ => None
  | google_sendMessage r | google_sendMessageStream r => Some (g_temperature r)
  end.

(** A backend stream without the events that carry no text: OpenAI chunks
    whose first choice has no content, Anthropic events other than text
    deltas, Gemini chunks with an empty text. *)
Definition strip_stream {A : Type} (keep : A -> bool) (s : upstream_stream A)
  : upstream_stream A :=
  mkStream (filter keep (events s)) (interrupted s).

Definition openai_has_text (chunk : list (option jsstring)) : bool :=
  match chunk with
  | Some (_ :: _) :: _ => true
  | _ => false
  end.

Definition anthropic_has_text (e : anthropic_event) : bool :=
  match e with
  | content_block_delta (text_delta _) => true
  | _ => false
  end.

Definition google_has_text (chunkText : jsstring) : bool :=
  match chunkText with
  | [] => false
  | _ :: _ => true
  end.

Definition text_only (up : Upstream) : Upstream :=
  mkUpstream
    (openai_create up)
    (fun r => option_map (strip_stream openai_has_text) (openai_create_stream up r))
    (anthropic_create up)
    (fun r => option_map (strip_stream anthropic_has_text) (anthropic_stream up r))
    (google_send up)
    (fun r => option_map (strip_stream google_has_text) (google_send_stream up r)).

(** How the reader sees the end of the route's stream: a closed stream ends
    the input, an errored one makes the read fail. *)
Definition transport_end (e : controller_end) : stream_end :=
  match e with
  | Closed => EndOfInput
  | Errored _ => ReadError
  end.

(** [provider = "openai"] in the destructuring of the request body. *)
Definition provider_of (body : RequestBody) : jsstring :=
  match body_provider body with
  | Some p => p
  | None => lit "openai"
  end.

(** ** The rendering of [ChatPlayground] *)

(** The state once [handleSubmit] has pushed the user message, cleared the
    input and set the loading flag, before [fetch] resolves. *)
Definition submitted (st : ClientState) : ClientState :=
  setIsLoading true
    (setInput []
       (setMessages (fun prev => prev ++ [mkMessage user (input st)]) st)).

(** The conversation on the page is empty or begins with a message of the
    user. *)
Definition starts_with_user (conversation : list Message) : Prop :=
  match conversation with
  | [] => True
  | first :: _ => role first = user
  end.

(** [disabled={isLoading || !input.trim()}] of the submit button. *)
Definition submit_disabled (st : ClientState) : bool :=
  isLoading st || trim_is_empty (input st).

(** [messages.length === 0]: the "Start a conversation" placeholder. *)
Definition show_placeholder (st : ClientState) : bool :=
  match messages st with
  | [] => true
  | _ :: _ => false
  end.

(** [isLoading && messages[messages.length - 1]?.role === "user"]: the
    "Writing..." bubble. *)
Definition show_writing (st : ClientState) : bool :=
  isLoading st
  && match lastMessage (messages st) with
     | Some m => match role m with user => true | _ => false end
     | None => false
     end.

(** A line the loop passes over without touching the messages: it lacks the
    [data: ] prefix, or its payload is neither the sentinel nor something
    the [try] block gets a [content] from. *)
Definition is_inert (line : jsstring) : bool :=
  if startsWith line (lit "data: ") then
    let data := slice 6 line in
    negb (jsstring_eqb data (lit "[DONE]"))
    && match JSON.parse data with
       | None => true
       | Some parsed =>
           match destructure_content parsed with
           | None => true
           | Some _ => false
           end
       end
  else true.

(** The text of the frames alone, without the terminal frame. *)
Definition frames_text (fragments : list jsstring) : jsstring :=
  List.concat (map (fun f => data_line f ++ blank_line) fragments).

(** What the loop can do to a state whose last message is [m]: grow the
    content of [m] and log parse errors. *)
Definition grown (st : ClientState) (ms : list Message) (m : Message)
  (st' : ClientState) : Prop :=
  exists text errors,
    st' = mkClientState
            (ms ++ [mkMessage (role m) (content m ++ text)])
            (input st) (isLoading st) (toasts st) (console st ++ errors)
    /\ Forall (fun e => e = ErrorParsingJSONChunk) errors.


(** [type Provider] of the playground, and the name it sends. *)
Inductive Provider := p_openai | p_anthropic | p_google.

Definition provider_name (p : Provider) : jsstring :=
  match p with
  | p_openai => lit "openai"
  | p_anthropic => lit "anthropic"
  | p_google => lit "google"
  end.

(** The body of the request [handleSubmit] posts: the messages of the state
    followed by the user message, and the selected provider. *)
Definition request_body (st : ClientState) (p : Provider) : RequestBody :=
  mkRequestBody (AnArray (messages st ++ [mkMessage user (input st)]))
    (Some (provider_name p)) None.

(** ** The vector store helper ([lib/vector-db]) *)

Module VectorDB.

(** [Record<string, string | number | boolean>] *)
Inductive scalar :=
| SString (s : jsstring)
| SNumber (n : Q)
| SBoolean (b : bool).

Definition record := list (jsstring * scalar).

Record vector := mkVector
  { id : jsstring;
    values : list Q;
    metadata : option record }.

Record query_request := mkQuery
  { q_vector : list Q;
    q_topK : N;
    q_filter : option record;
    q_includeMetadata : bool }.

Record scored_vector := mkScored
  { m_id : jsstring;
    m_score : Q;
    m_metadata : option record }.

(** What reaches OpenAI and Pinecone: the index handle is the name given to
    [pinecone.index], [None] when it is [undefined]. *)
Inductive service_call :=
| embeddings_create (model input : jsstring)
| upsert (index : option jsstring) (namespace : jsstring) (vectors : list vector)
| query (index : option jsstring) (namespace : jsstring) (request : query_request)
| deleteMany (index : option jsstring) (namespace : jsstring) (ids : list jsstring).

(** The [options] of [querySimilarVectors]; [semanticSearch] takes the
    same object and spreads it. *)
Record query_options := mkQueryOptions
  { topK : option N;
    namespace : option jsstring;
    filter : option record;
    includeMetadata : option bool }.

(** The environment and the two services: the embeddings of a response
    ([data[i].embedding]), [None] where a request is rejected. *)
Record Services := mkServices
  { PINECONE_INDEX : option jsstring;
    embeddings : jsstring -> jsstring -> option (list (list Q));
    run_upsert : option jsstring -> jsstring -> list vector -> bool;
    run_query :
      option jsstring -> jsstring -> query_request -> option (list scored_vector);
    run_deleteMany : option jsstring -> jsstring -> list jsstring -> bool }.

(** [x || "default"] for a namespace. *)
Definition or_default (ns : option jsstring) : jsstring :=
  match ns with
  | Some (c :: n) => c :: n
  | _ => lit "default"
  end.

Section Helper.

Variable sv : Services.

(** [pinecone.index(indexName || process.env.PINECONE_INDEX!)] *)
Definition getVectorIndex (indexName : option jsstring) : option jsstring :=
  match indexName with
  | Some (c :: n) => Some (c :: n)
  | _ => PINECONE_INDEX sv
  end.

Definition generateEmbedding (text : jsstring)
  : list service_call * completion (list Q) :=
  ([embeddings_create (lit "text-embedding-3-small") text],
   match embeddings sv (lit "text-embedding-3-small") text with
   | None => Threw UpstreamError
   | Some [] => Threw TypeError
   | Some (embedding :: _) => Returned embedding
   end).

Definition upsertVectors (vectors : list vector) (ns : option jsstring)
  : list service_call * completion unit :=
  let index := getVectorIndex None in
  ([upsert index (or_default ns) vectors],
   if run_upsert sv index (or_default ns) vectors
   then Returned tt else Threw UpstreamError).

(** [const { topK = 5, namespace = "default", filter, includeMetadata = true }
    = options || {}]: a default stands in for [undefined] only. *)
Definition querySimilarVectors (queryVector : list Q)
  (options : option query_options)
  : list service_call * completion (list scored_vector) :=
  let o := match options with
           | Some o => o
           | None => mkQueryOptions None None None None
           end in
  let k := match topK o with Some k => k | None => 5 end in
  let ns := match namespace o with Some n => n | None => lit "default" end in
  let im := match includeMetadata o with Some b => b | None => true end in
  let index := getVectorIndex None in
  let request := mkQuery queryVector k (filter o) im in
  ([query index ns request],
   match run_query sv index ns request with
   | Some matches => Returned matches
   | None => Threw UpstreamError
   end).

(** [{ ...options, includeMetadata: true }] *)
Definition with_metadata (options : option query_options) : query_options :=
  match options with
  | Some o => mkQueryOptions (topK o) (namespace o) (filter o) (Some true)
  | None => mkQueryOptions None None None (Some true)
  end.

Definition semanticSearch (text : jsstring) (options : option query_options)
  : list service_call * completion (list scored_vector) :=
  let '(calls1, r1) := generateEmbedding text in
  match r1 with
  | Threw e => (calls1, Threw e)
  | Returned queryEmbedding =>
      let '(calls2, r2) :=
        querySimilarVectors queryEmbedding (Some (with_metadata options)) in
      (calls1 ++ calls2, r2)
  end.

Definition deleteVectors (ids : list jsstring) (ns : option jsstring)
  : list service_call * completion unit :=
  let index := getVectorIndex None in
  ([deleteMany index (or_default ns) ids],
   if run_deleteMany sv index (or_default ns) ids
   then Returned tt else Threw UpstreamError).

End Helper.

(** The namespace and the index a call addresses. *)
Definition call_namespace (c : service_call) : option jsstring :=
  match c with
  | embeddings_create _ _ => None
  | upsert _ ns _ | query _ ns _ | deleteMany _ ns _ => Some ns
  end.

Definition call_index (c : service_call) : option (option jsstring) :=
  match c with
  | embeddings_create _ _ => None
  | upsert i _ _ | query i _ _ | deleteMany i _ _ => Some i
  end.

(** Services that accept everything; the embedding of any text is [[1; 0]]. *)
Definition plain_services : Services :=
  mkServices (Some (lit "docs"))
    (fun _ _ => Some [[1%Q; 0%Q]])
    (fun _ _ _ => true) (fun _ _ _ => Some []) (fun _ _ _ => true).

End VectorDB.

(** * Facts *)

(** ** Bit arithmetic *)

Lemma lor_shiftl_low (a b n : N) :
  b < 2 ^ n -> N.lor (N.shiftl a n) b = a * 2 ^ n + b.
Proof.
  intros Hb.
  assert (Hd : N.land (N.shiftl a n) b = 0).
  { apply N.bits_inj. intros k. rewrite N.land_spec, N.bits_0.
    destruct (N.lt_ge_cases k n) as [Hk | Hk].
    - rewrite N.shiftl_spec_low by assumption. reflexivity.
    - rewrite <- (N.mod_small b (2 ^ n)) by assumption.
      rewrite N.mod_pow2_bits_high by assumption.
      apply andb_false_r. }
  rewrite <- N.lxor_lor by assumption.
  rewrite <- N.add_nocarry_lxor by assumption.
  now rewrite N.shiftl_mul_pow2.
Qed.

Lemma lor_128 (b : N) : b < 64 -> N.lor 0x80 b = 128 + b.
Proof.
  intros Hb. change 0x80 with (N.shiftl 2 6).
  rewrite lor_shiftl_low by exact Hb. reflexivity.
Qed.

Lemma lor_shiftl_6 (a b : N) : b < 64 -> N.lor (N.shiftl a 6) b = a * 64 + b.
Proof. intros Hb. now rewrite lor_shiftl_low. Qed.

Lemma land_63 (a : N) : N.land a 0x3F = a mod 64.
Proof. change 0x3F with (N.ones 6). now rewrite N.land_ones. Qed.

Lemma land_31 (a : N) : N.land a 0x1F = a mod 32.
Proof. change 0x1F with (N.ones 5). now rewrite N.land_ones. Qed.

Lemma land_15 (a : N) : N.land a 0xF = a mod 16.
Proof. change 0xF with (N.ones 4). now rewrite N.land_ones. Qed.

Lemma land_7 (a : N) : N.land a 0x7 = a mod 8.
Proof. change 0x7 with (N.ones 3). now rewrite N.land_ones. Qed.

Lemma land_1023 (a : N) : N.land a 0x3FF = a mod 1024.
Proof. change 0x3FF with (N.ones 10). now rewrite N.land_ones. Qed.

Lemma shiftr_6 (a : N) : N.shiftr a 6 = a / 64.
Proof. now rewrite N.shiftr_div_pow2. Qed.

Lemma shiftr_10 (a : N) : N.shiftr a 10 = a / 1024.
Proof. now rewrite N.shiftr_div_pow2. Qed.

Lemma shiftr_12 (a : N) : N.shiftr a 12 = a / 4096.
Proof. now rewrite N.shiftr_div_pow2. Qed.

Lemma shiftr_18 (a : N) : N.shiftr a 18 = a / 262144.
Proof. now rewrite N.shiftr_div_pow2. Qed.

Lemma shiftl_10 (a : N) : N.shiftl a 10 = a * 1024.
Proof. now rewrite N.shiftl_mul_pow2. Qed.

Lemma mod_64_lt (a : N) : a mod 64 < 64.
Proof. apply N.mod_lt. discriminate. Qed.

(** Bit operations written as division and remainder, for [lia]. *)
Ltac bits_to_arith :=
  repeat first
    [ rewrite land_63 in * | rewrite land_31 in * | rewrite land_15 in *
    | rewrite land_7 in * | rewrite land_1023 in *
    | rewrite shiftr_6 in * | rewrite shiftr_10 in * | rewrite shiftr_12 in *
    | rewrite shiftr_18 in * | rewrite shiftl_10 in *
    | rewrite (lor_128 (_ mod 64)) in * by apply mod_64_lt
    | rewrite (lor_shiftl_6 _ (_ mod 64)) in * by apply mod_64_lt ].

Ltac Zify.zify_post_hook ::= Z.to_euclidean_division_equations.

(** ** UTF-8 *)

Lemma utf8_run_app d a b :
  UTF8.run d (a ++ b) =
  let '(d1, o1) := UTF8.run d a in
  let '(d2, o2) := UTF8.run d1 b in (d2, o1 ++ o2).
Proof.
  revert d. induction a as [|x a IH]; intros d; simpl.
  - destruct (UTF8.run d b). reflexivity.
  - destruct (UTF8.handler d x) as [d1 o1]. rewrite IH.
    destruct (UTF8.run d1 a) as [d2 o2].
    destruct (UTF8.run d2 b) as [d3 o3]. now rewrite app_assoc.
Qed.

Lemma handler_ascii b :
  b <= 0x7F -> UTF8.handler UTF8.initial b = (UTF8.initial, [b]).
Proof.
  intros H. unfold UTF8.handler, UTF8.lead. simpl.
  destruct (N.leb_spec b 0x7F); [reflexivity | lia].
Qed.

Lemma handler_lead2 b :
  0xC2 <= b <= 0xDF ->
  UTF8.handler UTF8.initial b = (UTF8.mkDecoder (b mod 32) 0 1 0x80 0xBF, []).
Proof.
  intros H. unfold UTF8.handler, UTF8.lead. simpl.
  destruct (N.leb_spec b 0x7F); [lia|].
  destruct (N.leb_spec 0xC2 b); [|lia].
  destruct (N.leb_spec b 0xDF); [|lia].
  simpl. now rewrite land_31.
Qed.

Lemma handler_lead3 b :
  0xE0 <= b <= 0xEF ->
  UTF8.handler UTF8.initial b =
  (UTF8.mkDecoder (b mod 16) 0 2
     (if b =? 0xE0 then 0xA0 else 0x80)
     (if b =? 0xED then 0x9F else 0xBF), []).
Proof.
  intros H. unfold UTF8.handler, UTF8.lead. simpl.
  destruct (N.leb_spec b 0x7F); [lia|].
  destruct (N.leb_spec 0xC2 b); [|lia].
  destruct (N.leb_spec b 0xDF); [lia|].
  destruct (N.leb_spec 0xE0 b); [|lia].
  destruct (N.leb_spec b 0xEF); [|lia].
  simpl. now rewrite land_15.
Qed.

Lemma handler_lead4 b :
  0xF0 <= b <= 0xF4 ->
  UTF8.handler UTF8.initial b =
  (UTF8.mkDecoder (b mod 8) 0 3
     (if b =? 0xF0 then 0x90 else 0x80)
     (if b =? 0xF4 then 0x8F else 0xBF), []).
Proof.
  intros H. unfold UTF8.handler, UTF8.lead. simpl.
  destruct (N.leb_spec b 0x7F); [lia|].
  destruct (N.leb_spec 0xC2 b); [|lia].
  destruct (N.leb_spec b 0xDF); [lia|].
  destruct (N.leb_spec 0xE0 b); [|lia].
  destruct (N.leb_spec b 0xEF); [lia|].
  destruct (N.leb_spec 0xF0 b); [|lia].
  destruct (N.leb_spec b 0xF4); [|lia].
  simpl. now rewrite land_7.
Qed.

Lemma handler_continuation cp seen needed lo hi b :
  needed <> 0 -> lo <= b <= hi ->
  UTF8.handler (UTF8.mkDecoder cp seen needed lo hi) b =
  if seen + 1 =? needed then (UTF8.initial, [cp * 64 + b mod 64])
  else (UTF8.mkDecoder (cp * 64 + b mod 64) (seen + 1) needed 0x80 0xBF, []).
Proof.
  intros Hn Hb. unfold UTF8.handler. cbn [UTF8.bytes_needed UTF8.lower_boundary
    UTF8.upper_boundary UTF8.code_point UTF8.bytes_seen].
  destruct (N.eqb_spec needed 0); [contradiction|].
  destruct (N.leb_spec lo b); [|lia].
  destruct (N.leb_spec b hi); [|lia].
  cbn [andb negb]. rewrite land_63, lor_shiftl_6 by apply mod_64_lt.
  reflexivity.
Qed.

Lemma handler_last cp seen needed lo hi b :
  needed <> 0 -> seen + 1 = needed -> lo <= b <= hi ->
  UTF8.handler (UTF8.mkDecoder cp seen needed lo hi) b =
  (UTF8.initial, [cp * 64 + b mod 64]).
Proof.
  intros Hn Hs Hb. rewrite handler_continuation by assumption.
  destruct (N.eqb_spec (seen + 1) needed); [reflexivity | contradiction].
Qed.

Lemma handler_more cp seen needed lo hi b :
  needed <> 0 -> seen + 1 <> needed -> lo <= b <= hi ->
  UTF8.handler (UTF8.mkDecoder cp seen needed lo hi) b =
  (UTF8.mkDecoder (cp * 64 + b mod 64) (seen + 1) needed 0x80 0xBF, []).
Proof.
  intros Hn Hs Hb. rewrite handler_continuation by assumption.
  destruct (N.eqb_spec (seen + 1) needed); [contradiction | reflexivity].
Qed.

Lemma utf8_run_encode_code_point cp :
  scalar_value cp ->
  UTF8.run UTF8.initial (UTF8.encode_code_point cp) = (UTF8.initial, [cp]).
Proof.
  intros [Hlt Hs]. unfold UTF8.is_surrogate in Hs.
  assert (Hns : cp < 0xD800 \/ 0xDFFF < cp).
  { destruct (N.leb_spec 0xD800 cp); [|lia].
    destruct (N.leb_spec cp 0xDFFF); [discriminate|lia]. }
  clear Hs. unfold UTF8.encode_code_point.
  destruct (N.ltb_spec cp 0x80) as [H1|H1].
  { cbn [UTF8.run]. rewrite handler_ascii by lia. reflexivity. }
  destruct (N.ltb_spec cp 0x800) as [H2|H2].
  { bits_to_arith. cbn [UTF8.run].
    rewrite handler_lead2 by lia.
    rewrite handler_last by lia. cbn [app].
    do 2 f_equal. lia. }
  destruct (N.ltb_spec cp 0x10000) as [H3|H3].
  { bits_to_arith. cbn [UTF8.run].
    rewrite handler_lead3 by lia.
    rewrite handler_more;
      [ | lia | lia
        | destruct (N.eqb_spec (cp / 4096 + 224) 224);
          destruct (N.eqb_spec (cp / 4096 + 224) 237); lia ].
    rewrite handler_last by lia. cbn [app].
    do 2 f_equal. lia. }
  bits_to_arith. cbn [UTF8.run].
  rewrite handler_lead4 by lia.
  rewrite handler_more;
    [ | lia | lia
      | destruct (N.eqb_spec (cp / 262144 + 240) 240);
        destruct (N.eqb_spec (cp / 262144 + 240) 244); lia ].
  rewrite handler_more by lia.
  rewrite handler_last by lia. cbn [app].
  do 2 f_equal. lia.
Qed.

Lemma surrogate_split c :
  UTF8.is_surrogate c = UTF8.is_high_surrogate c || UTF8.is_low_surrogate c.
Proof.
  unfold UTF8.is_surrogate, UTF8.is_high_surrogate, UTF8.is_low_surrogate.
  destruct (N.leb_spec 0xD800 c), (N.leb_spec c 0xDFFF),
    (N.leb_spec c 0xDBFF), (N.leb_spec 0xDC00 c); simpl; try reflexivity; lia.
Qed.

Lemma not_surrogate c :
  UTF8.is_surrogate c = false ->
  UTF8.is_high_surrogate c = false /\ UTF8.is_low_surrogate c = false.
Proof. rewrite surrogate_split. apply orb_false_iff. Qed.

Lemma high_surrogate_range c :
  UTF8.is_high_surrogate c = true -> 0xD800 <= c <= 0xDBFF.
Proof.
  unfold UTF8.is_high_surrogate. intros H. apply andb_true_iff in H as [H1 H2].
  apply N.leb_le in H1, H2. lia.
Qed.

Lemma low_surrogate_range c :
  UTF8.is_low_surrogate c = true -> 0xDC00 <= c <= 0xDFFF.
Proof.
  unfold UTF8.is_low_surrogate. intros H. apply andb_true_iff in H as [H1 H2].
  apply N.leb_le in H1, H2. lia.
Qed.

Lemma pair_scalar hi lo :
  UTF8.is_high_surrogate hi = true -> UTF8.is_low_surrogate lo = true ->
  scalar_value (UTF8.pair_code_point hi lo)
  /\ UTF8.code_units (UTF8.pair_code_point hi lo) = [hi; lo].
Proof.
  intros Hh Hl. apply high_surrogate_range in Hh. apply low_surrogate_range in Hl.
  unfold UTF8.pair_code_point, scalar_value, UTF8.is_surrogate, UTF8.code_units.
  rewrite shiftl_10.
  set (cp := 65536 + (hi - 55296) * 1024 + (lo - 56320)).
  assert (Hcp : 0x10000 <= cp < 0x110000) by (unfold cp; lia).
  repeat split.
  - lia.
  - destruct (N.leb_spec 0xD800 cp); [|lia].
    destruct (N.leb_spec cp 0xDFFF); [lia | reflexivity].
  - destruct (N.ltb_spec cp 0x10000); [lia|].
    rewrite shiftr_10, land_1023. unfold cp. f_equal; [lia|]. f_equal. lia.
Qed.

Lemma unit_scalar c :
  c < 0x10000 -> UTF8.is_surrogate c = false ->
  scalar_value c /\ UTF8.code_units c = [c].
Proof.
  intros Hc Hs. unfold scalar_value, UTF8.code_units. repeat split.
  - lia.
  - exact Hs.
  - destruct (N.ltb_spec c 0x10000); [reflexivity | lia].
Qed.

(** The scalar values of a well-formed string are its code points. *)
Lemma to_scalar_values_well_formed s :
  well_formed s ->
  Forall scalar_value (UTF8.to_scalar_values s)
  /\ flat_map UTF8.code_units (UTF8.to_scalar_values s) = s.
Proof.
  induction 1 as [|c s Hc Hs Hwf [IH1 IH2]|hi lo s Hh Hl Hwf [IH1 IH2]].
  - split; [constructor | reflexivity].
  - destruct (not_surrogate c Hs) as [Hnh Hnl].
    cbn [UTF8.to_scalar_values]. rewrite Hnh, Hnl.
    destruct (unit_scalar c Hc Hs) as [Hsc Hu]. split.
    + now constructor.
    + cbn [flat_map]. now rewrite Hu, IH2.
  - cbn [UTF8.to_scalar_values]. rewrite Hh, Hl.
    destruct (pair_scalar hi lo Hh Hl) as [Hsc Hu]. split.
    + now constructor.
    + cbn [flat_map]. now rewrite Hu, IH2.
Qed.

Lemma to_scalar_values_app a b :
  well_formed a ->
  UTF8.to_scalar_values (a ++ b)
    = UTF8.to_scalar_values a ++ UTF8.to_scalar_values b.
Proof.
  induction 1 as [|c s Hc Hs Hwf IH|hi lo s Hh Hl Hwf IH].
  - reflexivity.
  - destruct (not_surrogate c Hs) as [Hnh Hnl].
    cbn [UTF8.to_scalar_values app]. rewrite Hnh, Hnl. now rewrite IH.
  - cbn [UTF8.to_scalar_values app]. rewrite Hh, Hl. now rewrite IH.
Qed.

Lemma well_formed_app a b : well_formed a -> well_formed b -> well_formed (a ++ b).
Proof.
  induction 1; intros Hb; cbn [app];
    [assumption | apply wf_unit; auto | apply wf_pair; auto].
Qed.

Lemma encode_app a b :
  well_formed a -> UTF8.encode (a ++ b) = UTF8.encode a ++ UTF8.encode b.
Proof.
  intros Ha. unfold UTF8.encode.
  now rewrite to_scalar_values_app, flat_map_app.
Qed.

Lemma utf8_run_scalar_values cps :
  Forall scalar_value cps ->
  UTF8.run UTF8.initial (flat_map UTF8.encode_code_point cps)
    = (UTF8.initial, cps).
Proof.
  induction 1 as [|cp cps Hcp _ IH]; [reflexivity|].
  cbn [flat_map]. rewrite utf8_run_app, utf8_run_encode_code_point by assumption.
  now rewrite IH.
Qed.

Lemma serialize_seen cps :
  serialize true cps = (true, flat_map UTF8.code_units cps).
Proof.
  induction cps as [|cp cps IH]; [reflexivity|].
  cbn [serialize negb andb flat_map]. now rewrite IH.
Qed.

Lemma serialize_app seen a b :
  serialize seen (a ++ b) =
  let '(seen1, o1) := serialize seen a in
  let '(seen2, o2) := serialize seen1 b in (seen2, o1 ++ o2).
Proof.
  revert seen. induction a as [|cp a IH]; intros seen.
  - simpl. now destruct (serialize seen b).
  - cbn [app serialize]. destruct (negb seen && (cp =? UTF8.BOM)).
    + apply IH.
    + rewrite IH. destruct (serialize true a) as [s1 o1].
      destruct (serialize s1 b) as [s2 o2]. now rewrite app_assoc.
Qed.

(** Decoding is one pass over the bytes: cutting the input in two changes
    nothing. *)
Lemma decode_stream_app d a b :
  decode_stream d (a ++ b) =
  let '(d1, s1) := decode_stream d a in
  let '(d2, s2) := decode_stream d1 b in (d2, s1 ++ s2).
Proof.
  unfold decode_stream. rewrite utf8_run_app.
  destruct (UTF8.run (utf8_state d) a) as [u1 c1].
  destruct (serialize (bom_seen d) c1) as [seen1 o1] eqn:E1.
  cbn [utf8_state bom_seen].
  destruct (UTF8.run u1 b) as [u2 c2].
  rewrite serialize_app, E1.
  now destruct (serialize seen1 c2).
Qed.

(** What [TextEncoder] wrote of a well-formed string, [TextDecoder] reads
    back; the string here starts with an ASCII character, so no byte order
    mark is dropped. *)
Lemma decode_encode c s :
  c < 0x80 -> well_formed (c :: s) ->
  decode_stream new_TextDecoder (UTF8.encode (c :: s))
    = (mkTextDecoder UTF8.initial true, c :: s).
Proof.
  intros Hc Hwf. destruct (to_scalar_values_well_formed _ Hwf) as [Hsc Hu].
  unfold decode_stream, UTF8.encode, new_TextDecoder. cbn [utf8_state bom_seen].
  rewrite utf8_run_scalar_values by assumption.
  assert (E : UTF8.to_scalar_values (c :: s) = c :: UTF8.to_scalar_values s).
  { cbn [UTF8.to_scalar_values]. unfold UTF8.is_high_surrogate, UTF8.is_low_surrogate.
    destruct (N.leb_spec 0xD800 c); [lia|]. destruct (N.leb_spec 0xDC00 c); [lia|].
    reflexivity. }
  rewrite E in *. cbn [serialize negb andb].
  destruct (N.eqb_spec c UTF8.BOM) as [Hb|_]; [unfold UTF8.BOM in Hb; lia|].
  rewrite serialize_seen. cbn [flat_map] in Hu. now rewrite Hu.
Qed.

Lemma decode_encode_seen s :
  well_formed s ->
  decode_stream (mkTextDecoder UTF8.initial true) (UTF8.encode s)
    = (mkTextDecoder UTF8.initial true, s).
Proof.
  intros Hwf. destruct (to_scalar_values_well_formed _ Hwf) as [Hsc Hu].
  unfold decode_stream, UTF8.encode. cbn [utf8_state bom_seen].
  rewrite utf8_run_scalar_values by assumption.
  now rewrite serialize_seen, Hu.
Qed.

(** ** JSON: what [stringify] writes, [parse] reads back *)

Lemma hex_value_digit d :
  d < 16 -> JSON.hex_value (JSON.hex_digit d) = Some d.
Proof.
  intros Hd. unfold JSON.hex_digit, JSON.hex_value.
  destruct (N.ltb_spec d 10).
  - destruct (N.leb_spec 48 (48 + d)); [|lia].
    destruct (N.leb_spec (48 + d) 57); [|lia]. cbn [andb]. f_equal. lia.
  - destruct (N.leb_spec 48 (87 + d)); [|lia].
    destruct (N.leb_spec (87 + d) 57); [lia|].
    destruct (N.leb_spec 97 (87 + d)); [|lia].
    destruct (N.leb_spec (87 + d) 102); [|lia]. cbn [andb]. f_equal. lia.
Qed.

Lemma hex_digit_range d :
  d < 16 -> 48 <= JSON.hex_digit d <= 102.
Proof. intros Hd. unfold JSON.hex_digit. destruct (N.ltb_spec d 10); lia. Qed.

Lemma shiftr_4 (a : N) : N.shiftr a 4 = a / 16.
Proof. now rewrite N.shiftr_div_pow2. Qed.

Lemma shiftr_8 (a : N) : N.shiftr a 8 = a / 256.
Proof. now rewrite N.shiftr_div_pow2. Qed.

Lemma mod_16_lt (a : N) : a mod 16 < 16.
Proof. apply N.mod_lt. discriminate. Qed.

Lemma hex4_value x y z w :
  x < 16 -> y < 16 -> z < 16 -> w < 16 ->
  N.lor (N.shiftl x 12) (N.lor (N.shiftl y 8) (N.lor (N.shiftl z 4) w))
    = x * 4096 + y * 256 + z * 16 + w.
Proof.
  intros Hx Hy Hz Hw.
  rewrite (lor_shiftl_low z w 4) by exact Hw.
  rewrite (lor_shiftl_low y _ 8) by (change (2 ^ 4) with 16; change (2 ^ 8) with 256; lia).
  rewrite (lor_shiftl_low x _ 12)
    by (change (2 ^ 4) with 16; change (2 ^ 8) with 256;
        change (2 ^ 12) with 4096; lia).
  change (2 ^ 4) with 16; change (2 ^ 8) with 256; change (2 ^ 12) with 4096. lia.
Qed.

Lemma parse_UnicodeEscape c s :
  c < 0x10000 ->
  JSON.parse_string_characters (JSON.UnicodeEscape c ++ s)
    = JSON.cons_char c (JSON.parse_string_characters s).
Proof.
  intros Hc. unfold JSON.UnicodeEscape.
  rewrite !land_15, shiftr_4, shiftr_8, shiftr_12.
  cbn [app JSON.parse_string_characters N.eqb Pos.eqb].
  unfold JSON.hex4. rewrite !hex_value_digit by apply mod_16_lt.
  rewrite hex4_value by apply mod_16_lt.
  replace (_ + _ + _ + _) with c by lia. reflexivity.
Qed.

Lemma parse_plain c s :
  0x20 <= c -> c <> 34 -> c <> 92 ->
  JSON.parse_string_characters (c :: s)
    = JSON.cons_char c (JSON.parse_string_characters s).
Proof.
  intros H1 H2 H3. cbn [JSON.parse_string_characters].
  destruct (N.eqb_spec c 34); [contradiction|].
  destruct (N.eqb_spec c 92); [contradiction|].
  destruct (N.ltb_spec c 0x20); [lia | reflexivity].
Qed.

Lemma parse_quote_code_unit c s :
  c < 0x10000 ->
  JSON.parse_string_characters (JSON.quote_code_unit c ++ s)
    = JSON.cons_char c (JSON.parse_string_characters s).
Proof.
  intros Hc. unfold JSON.quote_code_unit.
  destruct (N.eqb_spec c 8) as [->|]; [reflexivity|].
  destruct (N.eqb_spec c 9) as [->|]; [reflexivity|].
  destruct (N.eqb_spec c 10) as [->|]; [reflexivity|].
  destruct (N.eqb_spec c 12) as [->|]; [reflexivity|].
  destruct (N.eqb_spec c 13) as [->|]; [reflexivity|].
  destruct (N.eqb_spec c 34) as [->|]; [reflexivity|].
  destruct (N.eqb_spec c 92) as [->|]; [reflexivity|].
  destruct (N.ltb_spec c 0x20).
  - now apply parse_UnicodeEscape.
  - now apply parse_plain.
Qed.

Lemma ascii_well_formed s : Forall ascii_printable s -> well_formed s.
Proof.
  induction 1 as [|c s [H1 H2] _ IH]; [constructor|].
  apply wf_unit; [lia| |exact IH]. unfold UTF8.is_surrogate.
  destruct (N.leb_spec 0xD800 c); [lia | reflexivity].
Qed.

Lemma UnicodeEscape_ascii c : Forall ascii_printable (JSON.UnicodeEscape c).
Proof.
  unfold JSON.UnicodeEscape, ascii_printable. rewrite !land_15.
  pose proof (hex_digit_range _ (mod_16_lt (N.shiftr c 12))).
  pose proof (hex_digit_range _ (mod_16_lt (N.shiftr c 8))).
  pose proof (hex_digit_range _ (mod_16_lt (N.shiftr c 4))).
  pose proof (hex_digit_range _ (mod_16_lt c)).
  repeat constructor; lia.
Qed.

Lemma quote_code_unit_spec c :
  c < 0x10000 -> UTF8.is_surrogate c = false ->
  well_formed (JSON.quote_code_unit c)
  /\ Forall (fun x => 0x20 <= x) (JSON.quote_code_unit c).
Proof.
  intros Hc Hs. unfold JSON.quote_code_unit.
  repeat match goal with
         | |- context [N.eqb c ?k] => destruct (N.eqb_spec c k) as [->|]
         end;
    try (split; [apply ascii_well_formed|]; repeat constructor; lia).
  destruct (N.ltb_spec c 0x20).
  - split; [apply ascii_well_formed, UnicodeEscape_ascii|].
    eapply Forall_impl; [|apply UnicodeEscape_ascii]. unfold ascii_printable. lia.
  - split; [apply wf_unit; [assumption|assumption|constructor]|].
    repeat constructor. assumption.
Qed.

Lemma js_string_inv c s : js_string (c :: s) -> c < 0x10000 /\ js_string s.
Proof. intros H. inversion H; subst. now split. Qed.

(** QuoteJSONString: the quoted characters are well formed and printable,
    and the string parser reads the original string back from them. *)
Lemma quote_code_units_spec (n : nat) : forall s,
  (List.length s <= n)%nat -> js_string s ->
  well_formed (JSON.quote_code_units s)
  /\ Forall (fun x => 0x20 <= x) (JSON.quote_code_units s)
  /\ forall rest,
       JSON.parse_string_characters (JSON.quote_code_units s ++ 34 :: rest)
         = Some (s, rest).
Proof.
  induction n as [|n IH]; intros s Hn Hs.
  { destruct s; [|simpl in Hn; lia]. repeat split; constructor. }
  destruct s as [|c r]; [repeat split; constructor|].
  apply js_string_inv in Hs as [Hc Hr]. cbn [List.length] in Hn.
  destruct (IH r ltac:(lia) Hr) as (IHw & IHp & IHr).
  assert (Hesc : well_formed (JSON.UnicodeEscape c ++ JSON.quote_code_units r)
    /\ Forall (fun x => 0x20 <= x) (JSON.UnicodeEscape c ++ JSON.quote_code_units r)
    /\ forall rest,
         JSON.parse_string_characters
           ((JSON.UnicodeEscape c ++ JSON.quote_code_units r) ++ 34 :: rest)
           = Some (c :: r, rest)).
  { split; [|split].
    - apply well_formed_app; [apply ascii_well_formed, UnicodeEscape_ascii | exact IHw].
    - apply Forall_app. split; [|exact IHp].
      eapply Forall_impl; [|apply UnicodeEscape_ascii]. unfold ascii_printable. lia.
    - intros rest. rewrite <- app_assoc, parse_UnicodeEscape by exact Hc.
      now rewrite IHr. }
  cbn [JSON.quote_code_units].
  destruct (UTF8.is_high_surrogate c) eqn:Hh.
  - destruct r as [|d r'].
    + rewrite app_nil_r in Hesc. exact Hesc.
    + destruct (UTF8.is_low_surrogate d) eqn:Hl; [|exact Hesc].
      apply js_string_inv in Hr as [Hd Hr']. cbn [List.length] in Hn.
      destruct (IH r' ltac:(lia) Hr') as (IHw' & IHp' & IHr').
      pose proof (high_surrogate_range c Hh). pose proof (low_surrogate_range d Hl).
      split; [|split].
      * now apply wf_pair.
      * constructor; [lia|]. constructor; [lia | exact IHp'].
      * intros rest. cbn [app]. rewrite parse_plain by lia.
        rewrite parse_plain by lia. now rewrite IHr'.
  - destruct (UTF8.is_low_surrogate c) eqn:Hl; [exact Hesc|].
    assert (Hns : UTF8.is_surrogate c = false)
      by (rewrite surrogate_split, Hh, Hl; reflexivity).
    destruct (quote_code_unit_spec c Hc Hns) as [Hw Hp].
    split; [|split].
    + now apply well_formed_app.
    + apply Forall_app. now split.
    + intros rest. rewrite <- app_assoc, parse_quote_code_unit by exact Hc.
      now rewrite IHr.
Qed.

Lemma QuoteJSONString_spec s :
  js_string s ->
  well_formed (JSON.QuoteJSONString s)
  /\ Forall (fun x => 0x20 <= x) (JSON.QuoteJSONString s)
  /\ forall rest,
       JSON.parse_string_characters (JSON.quote_code_units s ++ 34 :: rest)
         = Some (s, rest).
Proof.
  intros Hs. destruct (quote_code_units_spec (List.length s) s (le_n _) Hs)
    as (Hw & Hp & Hr).
  unfold JSON.QuoteJSONString. split; [|split].
  - change (well_formed ([34] ++ JSON.quote_code_units s ++ [34])).
    apply well_formed_app; [apply ascii_well_formed; repeat constructor; lia|].
    apply well_formed_app; [exact Hw|].
    apply ascii_well_formed; repeat constructor; lia.
  - constructor; [lia|]. apply Forall_app. split; [exact Hp|].
    repeat constructor. lia.
  - exact Hr.
Qed.

Lemma parse_value_stringify_content fuel chunk :
  js_string chunk ->
  JSON.parse_value (S (S (S fuel))) (JSON.stringify_content chunk)
    = Some (JSON.JObject [(lit "content", JSON.JString chunk)], []).
Proof.
  intros Hs. destruct (QuoteJSONString_spec chunk Hs) as (_ & _ & Hr).
  unfold JSON.stringify_content, JSON.QuoteJSONString.
  change (JSON.quote_code_units (lit "content")) with (lit "content").
  cbn. rewrite <- app_assoc. cbn [app]. rewrite Hr. reflexivity.
Qed.

(** [JSON.parse(JSON.stringify({ content: chunk }))] is [{ content: chunk }]. *)
Lemma parse_stringify_content chunk :
  js_string chunk ->
  JSON.parse (JSON.stringify_content chunk)
    = Some (JSON.JObject [(lit "content", JSON.JString chunk)]).
Proof.
  intros Hs. unfold JSON.parse.
  assert (Hf : exists k,
    (2 * List.length (JSON.stringify_content chunk) + 2 = S (S (S k)))%nat).
  { exists (2 * List.length (JSON.stringify_content chunk) - 1)%nat.
    unfold JSON.stringify_content. cbn [List.length]. lia. }
  destruct Hf as [k ->]. now rewrite parse_value_stringify_content.
Qed.

(** *** The fuel of [JSON.parse] is enough

    A parse that succeeds with some fuel succeeds, with the same result,
    with the fuel [parse] supplies: [None] is a syntax error, never a
    shortage of fuel. *)

Lemma skip_whitespace_length s :
  (List.length (JSON.skip_whitespace s) <= List.length s)%nat.
Proof.
  induction s as [|c r IH]; [apply le_n|].
  cbn [JSON.skip_whitespace]. destruct (JSON.is_whitespace c); cbn [List.length]; lia.
Qed.

Lemma cons_char_length c p str rest :
  JSON.cons_char c p = Some (str, rest) ->
  exists str', p = Some (str', rest).
Proof.
  destruct p as [[str' rest']|]; [|discriminate]. cbn [JSON.cons_char].
  intros [= <- <-]. now exists str'.
Qed.

Lemma parse_string_characters_length (n : nat) : forall s str rest,
  (List.length s <= n)%nat ->
  JSON.parse_string_characters s = Some (str, rest) ->
  (List.length rest < List.length s)%nat.
Proof.
  induction n as [|n IH]; intros s str rest Hn H.
  { destruct s; [discriminate | simpl in Hn; lia]. }
  destruct s as [|c r]; [discriminate|]. cbn [List.length] in *.
  cbn [JSON.parse_string_characters] in H.
  destruct (c =? 34); [injection H as <- <-; lia|].
  destruct (c =? 92).
  - destruct r as [|e r1]; [discriminate|]. cbn [List.length] in *.
    destruct (e =? 117).
    + destruct r1 as [|h1 [|h2 [|h3 [|h4 r2]]]]; try discriminate.
      destruct (JSON.hex4 h1 h2 h3 h4); [|discriminate].
      apply cons_char_length in H as [str' H]. cbn [List.length] in *.
      apply IH in H; lia.
    + destruct (JSON.single_escape e); [|discriminate].
      apply cons_char_length in H as [str' H]. apply IH in H; lia.
  - destruct (c <? 32); [discriminate|].
    apply cons_char_length in H as [str' H]. apply IH in H; lia.
Qed.

Lemma span_digits_length s :
  (List.length (snd (JSON.span_digits s)) <= List.length s)%nat.
Proof.
  induction s as [|c r IH]; [apply le_n|]. cbn [JSON.span_digits].
  destruct (JSON.is_digit c); [|apply le_n].
  destruct (JSON.span_digits r) as [ds rest]. cbn [snd List.length] in *. lia.
Qed.

Lemma parse_int_length s i rest :
  JSON.parse_int s = Some (i, rest) -> (List.length rest < List.length s)%nat.
Proof.
  destruct s as [|c r]; [discriminate|]. cbn [JSON.parse_int List.length].
  destruct (c =? 48); [intros [= <- <-]; lia|].
  destruct (JSON.is_digit c); [|discriminate].
  pose proof (span_digits_length r) as Hd.
  destruct (JSON.span_digits r) as [ds rest']. intros [= <- <-].
  cbn [snd] in Hd. lia.
Qed.

Lemma parse_fraction_length s f rest :
  JSON.parse_fraction s = Some (f, rest) -> (List.length rest <= List.length s)%nat.
Proof.
  destruct s as [|c r]; [intros [= <- <-]; apply le_n|].
  cbn [JSON.parse_fraction List.length].
  destruct (c =? 46); [|intros [= <- <-]; apply le_n].
  pose proof (span_digits_length r) as Hd.
  destruct (JSON.span_digits r) as [[|d ds] rest']; [discriminate|].
  intros [= <- <-]. cbn [snd] in Hd. lia.
Qed.

Lemma parse_exponent_length s e rest :
  JSON.parse_exponent s = Some (e, rest) -> (List.length rest <= List.length s)%nat.
Proof.
  destruct s as [|c r]; [intros [= <- <-]; apply le_n|].
  cbn [JSON.parse_exponent List.length].
  destruct ((c =? 101) || (c =? 69)); [|intros [= <- <-]; apply le_n].
  destruct r as [|x r'].
  - cbn. discriminate.
  - destruct ((x =? 43) || (x =? 45)).
    + pose proof (span_digits_length r') as Hd.
      destruct (JSON.span_digits r') as [[|d ds] rest']; [discriminate|].
      intros [= <- <-]. cbn [snd List.length] in *. lia.
    + pose proof (span_digits_length (x :: r')) as Hd.
      destruct (JSON.span_digits (x :: r')) as [[|d ds] rest']; [discriminate|].
      intros [= <- <-]. cbn [snd List.length] in *. lia.
Qed.

Lemma parse_number_tail_length sign s1 lexeme rest :
  match JSON.parse_int s1 with
  | Some (i, s2) =>
      match JSON.parse_fraction s2 with
      | Some (f, s3) =>
          match JSON.parse_exponent s3 with
          | Some (e, s4) => Some (sign ++ i ++ f ++ e, s4)
          | None => None
          end
      | None => None
      end
  | None => None
  end = Some (lexeme, rest) -> (List.length rest < List.length s1)%nat.
Proof.
  destruct (JSON.parse_int s1) as [[i s2]|] eqn:Ei; [|discriminate].
  destruct (JSON.parse_fraction s2) as [[f s3]|] eqn:Ef; [|discriminate].
  destruct (JSON.parse_exponent s3) as [[e s4]|] eqn:Ee; [|discriminate].
  intros [= <- <-]. apply parse_int_length in Ei.
  apply parse_fraction_length in Ef. apply parse_exponent_length in Ee. lia.
Qed.

Lemma parse_number_length s lexeme rest :
  JSON.parse_number s = Some (lexeme, rest) ->
  (List.length rest < List.length s)%nat.
Proof.
  unfold JSON.parse_number. destruct s as [|c r].
  - apply parse_number_tail_length.
  - destruct (c =? 45).
    + intros H. apply parse_number_tail_length in H. cbn [List.length]. lia.
    + apply parse_number_tail_length.
Qed.

Lemma startsWith_length s p :
  startsWith s p = true -> (List.length p <= List.length s)%nat.
Proof.
  revert s. induction p as [|x p IH]; intros s; [cbn; lia|].
  destruct s as [|y s]; [discriminate|]. cbn [startsWith List.length].
  intros H. apply andb_true_iff in H as [_ H]. apply IH in H. lia.
Qed.

Lemma parse_literal_length word v s v' rest :
  word <> [] ->
  JSON.parse_literal word v s = Some (v', rest) ->
  (List.length rest < List.length s)%nat.
Proof.
  intros Hw. unfold JSON.parse_literal.
  destruct (startsWith s word) eqn:E; [|discriminate].
  intros [= <- <-]. apply startsWith_length in E. rewrite length_skipn.
  destruct word; [contradiction|]. cbn [List.length] in *. lia.
Qed.

Lemma fuel_successor (P : nat -> Prop) (a b : nat) :
  ((b < a)%nat /\ forall g, (2 * (a - b) <= S g)%nat -> P (S g)) ->
  (b < a)%nat /\ forall g, (2 * (a - b) <= g)%nat -> P g.
Proof.
  intros [Hl Hr]. split; [exact Hl|]. intros [|g] Hg; [lia | now apply Hr].
Qed.

Lemma parse_fuel (f : nat) :
  (forall s v r,
     JSON.parse_value f s = Some (v, r) ->
     (List.length r < List.length s)%nat
     /\ forall g, (2 * (List.length s - List.length r) <= g)%nat ->
                  JSON.parse_value g s = Some (v, r))
  /\ (forall acc s v r,
        JSON.parse_elements f acc s = Some (v, r) ->
        (List.length r < List.length s)%nat
        /\ forall g, (2 * (List.length s - List.length r) <= g)%nat ->
                     JSON.parse_elements g acc s = Some (v, r))
  /\ (forall acc s v r,
        JSON.parse_members f acc s = Some (v, r) ->
        (List.length r < List.length s)%nat
        /\ forall g, (2 * (List.length s - List.length r) <= g)%nat ->
                     JSON.parse_members g acc s = Some (v, r)).
Proof.
  induction f as [|f (IHv & IHe & IHm)]; [repeat split; discriminate|].
  split; [|split].
  - intros s v r H.
    apply (fuel_successor (fun g => JSON.parse_value g s = Some (v, r))).
    cbn [JSON.parse_value] in *.
    pose proof (skip_whitespace_length s) as Hws.
    destruct (JSON.skip_whitespace s) as [|c r0]; [discriminate|].
    cbn [List.length] in Hws.
    destruct (c =? 34).
    { destruct (JSON.parse_string_characters r0) as [[str rest]|] eqn:Es;
        [|discriminate].
      injection H as <- <-.
      apply (parse_string_characters_length _ _ _ _ (le_n _)) in Es.
      split; [lia | reflexivity]. }
    destruct (c =? 91).
    { pose proof (skip_whitespace_length r0) as Hw2.
      destruct (JSON.skip_whitespace r0) as [|c' r']; [discriminate|].
      cbn [List.length] in Hw2.
      destruct (c' =? 93); [injection H as <- <-; split; [lia | reflexivity]|].
      apply IHe in H as [Hl Hr]. split; [lia|]. intros g Hg. apply Hr. lia. }
    destruct (c =? 123).
    { pose proof (skip_whitespace_length r0) as Hw2.
      destruct (JSON.skip_whitespace r0) as [|c' r']; [discriminate|].
      cbn [List.length] in Hw2.
      destruct (c' =? 125); [injection H as <- <-; split; [lia | reflexivity]|].
      apply IHm in H as [Hl Hr]. split; [lia|]. intros g Hg. apply Hr. lia. }
    destruct (c =? 116).
    { pose proof H as Hl. apply parse_literal_length in Hl; [|discriminate].
      cbn [List.length] in Hl. split; [lia | intros; exact H]. }
    destruct (c =? 102).
    { pose proof H as Hl. apply parse_literal_length in Hl; [|discriminate].
      cbn [List.length] in Hl. split; [lia | intros; exact H]. }
    destruct (c =? 110).
    { pose proof H as Hl. apply parse_literal_length in Hl; [|discriminate].
      cbn [List.length] in Hl. split; [lia | intros; exact H]. }
    destruct (JSON.parse_number (c :: r0)) as [[lexeme rest]|] eqn:En;
      [|discriminate].
    injection H as <- <-. apply parse_number_length in En.
    cbn [List.length] in En. split; [lia | reflexivity].
  - intros acc s v r H.
    apply (fuel_successor (fun g => JSON.parse_elements g acc s = Some (v, r))).
    cbn [JSON.parse_elements] in *.
    destruct (JSON.parse_value f s) as [[v1 r1]|] eqn:Ev; [|discriminate].
    apply IHv in Ev as [Hl1 Hr1].
    pose proof (skip_whitespace_length r1) as Hws.
    destruct (JSON.skip_whitespace r1) as [|c r'] eqn:Ews; [discriminate|].
    cbn [List.length] in Hws.
    destruct (c =? 44) eqn:E44.
    { apply IHe in H as [Hl Hr]. split; [lia|]. intros g Hg.
      rewrite Hr1 by lia. rewrite Ews, E44. apply Hr. lia. }
    destruct (c =? 93) eqn:E93; [|discriminate].
    injection H as <- <-. split; [lia|]. intros g Hg.
    rewrite Hr1 by lia. now rewrite Ews, E44, E93.
  - intros acc s v r H.
    apply (fuel_successor (fun g => JSON.parse_members g acc s = Some (v, r))).
    cbn [JSON.parse_members] in *.
    pose proof (skip_whitespace_length s) as Hws.
    destruct (JSON.skip_whitespace s) as [|c r0]; [discriminate|].
    cbn [List.length] in Hws.
    destruct (c =? 34); [|discriminate].
    destruct (JSON.parse_string_characters r0) as [[key r1]|] eqn:Es;
      [|discriminate].
    apply (parse_string_characters_length _ _ _ _ (le_n _)) in Es.
    pose proof (skip_whitespace_length r1) as Hw1.
    destruct (JSON.skip_whitespace r1) as [|c1 r2]; [discriminate|].
    cbn [List.length] in Hw1.
    destruct (c1 =? 58); [|discriminate].
    destruct (JSON.parse_value f r2) as [[v1 r3]|] eqn:Ev; [|discriminate].
    apply IHv in Ev as [Hl1 Hr1].
    pose proof (skip_whitespace_length r3) as Hw3.
    destruct (JSON.skip_whitespace r3) as [|c3 r4] eqn:Ews; [discriminate|].
    cbn [List.length] in Hw3.
    destruct (c3 =? 44) eqn:E44.
    { apply IHm in H as [Hl Hr]. split; [lia|]. intros g Hg.
      rewrite Hr1 by lia. rewrite Ews, E44. apply Hr. lia. }
    destruct (c3 =? 125) eqn:E125; [|discriminate].
    injection H as <- <-. split; [lia|]. intros g Hg.
    rewrite Hr1 by lia. now rewrite Ews, E44, E125.
Qed.

(** Whatever fuel finds a value, the fuel that [JSON.parse] supplies finds
    the same value. *)
Lemma parse_value_enough_fuel f text v rest :
  JSON.parse_value f text = Some (v, rest) ->
  JSON.parse_value (2 * List.length text + 2) text = Some (v, rest).
Proof.
  intros H. destruct (parse_fuel f) as (Hv & _ & _).
  destruct (Hv _ _ _ H) as [_ Hg]. apply Hg. lia.
Qed.

(** ** Strings *)

Lemma jsstring_eqb_eq a b : jsstring_eqb a b = true <-> a = b.
Proof.
  revert b. induction a as [|x a IH]; intros [|y b]; simpl; split;
    try discriminate; try reflexivity.
  - intros H. apply andb_true_iff in H as [Hx Hr].
    apply N.eqb_eq in Hx. apply IH in Hr. now subst.
  - intros H. injection H as -> ->. rewrite N.eqb_refl. simpl. now apply IH.
Qed.

Lemma jsstring_eqb_neq a b : a <> b -> jsstring_eqb a b = false.
Proof.
  intros H. destruct (jsstring_eqb a b) eqn:E; [|reflexivity].
  apply jsstring_eqb_eq in E. contradiction.
Qed.

Lemma js_string_check s : js_stringb s = true -> js_string s.
Proof.
  unfold js_stringb, js_string, code_unit. intros H. apply Forall_forall.
  intros c Hc. rewrite forallb_forall in H. now apply N.ltb_lt, H.
Qed.

Lemma js_strings_check l : forallb js_stringb l = true -> Forall js_string l.
Proof.
  intros H. apply Forall_forall. intros s Hs. rewrite forallb_forall in H.
  now apply js_string_check, H.
Qed.

(** ** The generator and the route *)

Lemma lastMessage_last (messages : list ChatMessage) d :
  messages <> [] -> lastMessage messages = Some (last messages d).
Proof.
  unfold lastMessage. induction messages as [|m ms IH]; [contradiction|].
  intros _. destruct ms as [|m' ms]; [reflexivity|].
  specialize (IH ltac:(discriminate)).
  change (last (m :: m' :: ms) d) with (last (m' :: ms) d). rewrite <- IH.
  simpl. now rewrite Nat.sub_0_r.
Qed.

(** C8.  Given the messages [system "X"; user "Y"], the anthropic adapter
    calls upstream once, in blocking and in streaming mode alike, with the
    single instruction "X" out of band and the single turn "Y" as history.
    For any message list the history is the user and assistant turns in
    their original order, and the instruction is the content of the first
    system message. *)
Theorem anthropic_system_extraction (up : Upstream) (X Y : jsstring)
  (options : option GenerationOptions) :
  let messages := [mkMessage system X; mkMessage user Y] in
  let r := mkAnthropic (model_or options (lit "claude-3-sonnet-20240229"))
             (maxTokens_of options) (Some X) [mkMessage user Y] in
  fst (generateChatResponse up messages (lit "anthropic") options)
    = [anthropic_messages_create r]
  /\ fst (streamChatResponse up messages (lit "anthropic") options)
    = [anthropic_messages_stream r]
  /\ forall (history : list ChatMessage),
       an_messages (anthropic_request_of history options)
         = filter (fun m => negb (is_system m)) history
       /\ an_system (anthropic_request_of history options)
         = option_map content (find is_system history).
Proof.
  cbv zeta. repeat split.
  unfold anthropic_request_of, otherMessages. cbn [an_messages].
  induction history as [|[r c] h IH]; [reflexivity|].
  cbn [filter]. destruct (negb (is_system _)); cbn [map]; now rewrite IH.
Qed.

Lemma provider_google_dispatch :
  jsstring_eqb (lit "google") (lit "openai") = false
  /\ jsstring_eqb (lit "google") (lit "anthropic") = false
  /\ jsstring_eqb (lit "google") (lit "google") = true.
Proof. repeat split. Qed.

Lemma startChat_accepts_history (messages : list ChatMessage) :
  startChat_accepts (gemini_history messages) = true <-> history_accepted messages.
Proof.
  unfold gemini_history, history_accepted.
  destruct messages as [|m [|m' ms]]; cbn [removelast map startChat_accepts g_role];
    [tauto | tauto |].
  destruct (role m); split; intros H; try reflexivity; discriminate H.
Qed.

Lemma startChat_rejects_history (messages : list ChatMessage) :
  startChat_accepts (gemini_history messages) = false <-> ~ history_accepted messages.
Proof.
  rewrite <- startChat_accepts_history.
  destruct (startChat_accepts (gemini_history messages)); split.
  - discriminate.
  - intros H. now contradiction H.
  - intros _ H. discriminate H.
  - reflexivity.
Qed.




(** C4, as stated, fails: an authorized request with the empty message list
    passes the route's validation and is dispatched, here to openai, which
    receives one upstream call with no messages; the blocking operation
    validates nothing either. *)
Lemma empty_messages_are_dispatched :
  POST quiet_upstream (authorized (mkRequestBody (AnArray []) None None))
    = ([openai_chat_completions_create
          (mkOpenAI (lit "gpt-3.5-turbo") [] 1024 (7 # 10)%Q true)],
       EventStream [done_frame] Closed)
  /\ generateChatResponse quiet_upstream [] (lit "anthropic") None
    = ([anthropic_messages_create
          (mkAnthropic (lit "claude-3-sonnet-20240229") 1024 None [])],
       Returned []).
Proof. split; reflexivity. Qed.

(** C4, amended.  A request whose [messages] is missing or is not an array is
    answered by the route with the 400 error "Messages array is required"
    and no upstream call.  The empty array passes that check:
    [streamChatResponse] and [generateChatResponse] validate nothing, and
    for openai and anthropic the empty list reaches the backend in one
    upstream call. *)
Theorem messages_validation (up : Upstream) :
  (forall c uid provider model_name,
     POST up (mkRequest (Some (c :: uid))
                (Some (mkRequestBody NotAnArray provider model_name)))
       = ([], NextResponse_json "Messages array is required" 400))
  /\ (forall options,
        fst (streamChatResponse up [] (lit "openai") options)
          = [openai_chat_completions_create (openai_request_of [] options true)]
        /\ fst (generateChatResponse up [] (lit "openai") options)
          = [openai_chat_completions_create (openai_request_of [] options false)]
        /\ fst (streamChatResponse up [] (lit "anthropic") options)
          = [anthropic_messages_stream (anthropic_request_of [] options)]
        /\ fst (generateChatResponse up [] (lit "anthropic") options)
          = [anthropic_messages_create (anthropic_request_of [] options)]).
Proof. split; [reflexivity | repeat split]. Qed.

(** C5, as stated, fails: with the unknown provider "mistral" the route
    answers with an opened event stream, which then errors; no structured
    error response is produced. *)
Lemma unknown_provider_opens_stream :
  POST quiet_upstream
    (authorized (mkRequestBody (AnArray [mkMessage user (lit "hi")])
                   (Some (lit "mistral")) None))
    = ([], EventStream [] (Errored (Error (lit "Unsupported AI provider: mistral")))).
Proof. reflexivity. Qed.

(** C5, amended.  For a provider selector that is none of the three known
    ones, [generateChatResponse] and [streamChatResponse] throw
    "Unsupported AI provider: <selector>" with zero upstream calls; the
    route has by then opened its event stream, which errors with that
    error before any frame is enqueued. *)
Theorem unknown_provider (up : Upstream) (provider : jsstring)
  (messages : list ChatMessage) (options : option GenerationOptions) :
  ~ known_provider provider ->
  generateChatResponse up messages provider options
    = ([], Threw (Unsupported provider))
  /\ streamChatResponse up messages provider options
    = ([], mkGenerated [] (Threw (Unsupported provider)))
  /\ forall c uid model_name,
       POST up (mkRequest (Some (c :: uid))
                  (Some (mkRequestBody (AnArray messages) (Some provider) model_name)))
         = ([], EventStream [] (Errored (Unsupported provider))).
Proof.
  intros Hk. unfold known_provider in Hk.
  assert (H1 : jsstring_eqb provider (lit "openai") = false)
    by (apply jsstring_eqb_neq; tauto).
  assert (H2 : jsstring_eqb provider (lit "anthropic") = false)
    by (apply jsstring_eqb_neq; tauto).
  assert (H3 : jsstring_eqb provider (lit "google") = false)
    by (apply jsstring_eqb_neq; tauto).
  repeat split.
  - unfold generateChatResponse. now rewrite H1, H2, H3.
  - unfold streamChatResponse. now rewrite H1, H2, H3.
  - intros c uid model_name. unfold POST, streamChatResponse.
    cbn [userId json body_provider body_messages]. now rewrite H1, H2, H3.
Qed.

(** The selector "mistral". *)
Lemma unknown_provider_witness :
  generateChatResponse quiet_upstream [] (lit "mistral") None
    = ([], Threw (Unsupported (lit "mistral"))).
Proof.
  refine (proj1 (unknown_provider quiet_upstream (lit "mistral") [] None _)).
  unfold known_provider. intros [H | [H | H]]; discriminate H.
Defined.

(** C7, as stated, fails: the anthropic adapter yields the empty text of an
    empty delta, and the route enqueues a frame for it. *)
Lemma empty_fragment_is_framed :
  POST empty_delta_upstream
    (authorized (mkRequestBody (AnArray [mkMessage user (lit "hi")])
                   (Some (lit "anthropic")) None))
    = ([anthropic_messages_stream
          (mkAnthropic (lit "claude-3-sonnet-20240229") 1024 None
             [mkMessage user (lit "hi")])],
       EventStream
         [lit "data: {" ++ [34] ++ lit "content" ++ [34; 58; 34; 34; 125; 10; 10];
          frame (lit "Hi"); done_frame]
         Closed)
  /\ frame [] <> [].
Proof. split; [reflexivity | discriminate]. Qed.

Lemma flat_map_nonempty {A : Type} (f : A -> list jsstring) (l : list A) :
  (forall a, Forall (fun x => x <> []) (f a)) ->
  Forall (fun x => x <> []) (flat_map f l).
Proof.
  intros Hf. induction l as [|a l IH]; simpl; [constructor|].
  apply Forall_app. split; [apply Hf | exact IH].
Qed.

(** C7, amended.  The framer enqueues one frame for every fragment, the
    empty string included, and then the terminal frame; no frame is empty.
    The openai and google adapters yield no empty fragment. *)
Theorem framer_frames_every_fragment (up : Upstream) :
  (forall fragments,
     ReadableStream_start (mkGenerated fragments (Returned tt))
       = (map frame fragments ++ [done_frame], Closed))
  /\ (forall chunk, frame chunk <> [])
  /\ (forall messages options,
        Forall (fun f => f <> [])
          (yielded (snd (streamChatResponse up messages (lit "openai") options)))
        /\ Forall (fun f => f <> [])
          (yielded (snd (streamChatResponse up messages (lit "google") options)))).
Proof.
  split; [reflexivity|]. split; [discriminate|].
  intros messages options. split.
  - unfold streamChatResponse. cbn [jsstring_eqb lit]. simpl snd.
    unfold drain. destruct (openai_create_stream up _); [|constructor].
    apply flat_map_nonempty. intros [|[[|c t]|] r]; repeat constructor.
    discriminate.
  - unfold streamChatResponse. destruct provider_google_dispatch as (-> & -> & ->).
    destruct (startChat_accepts (gemini_history messages)); [|constructor].
    destruct (lastMessage messages); [|constructor]. simpl snd.
    unfold drain. destruct (google_send_stream up _); [|constructor].
    apply flat_map_nonempty. intros [|x t]; repeat constructor. discriminate.
Qed.

(** *** Blocking against streaming mode *)

Lemma openai_fragments_text (es : list (list (option jsstring))) :
  List.concat (flat_map openai_fragment es) = List.concat (map first_choice es).
Proof.
  induction es as [|e es IH]; [reflexivity|].
  cbn [flat_map map List.concat]. rewrite concat_app, IH. f_equal.
  destruct e as [|[[|c t]|] r]; simpl; now rewrite ?app_nil_r.
Qed.

Lemma google_fragments_text (es : list jsstring) :
  List.concat (flat_map google_fragment es) = List.concat es.
Proof.
  induction es as [|e es IH]; [reflexivity|].
  cbn [flat_map List.concat]. rewrite concat_app, IH. f_equal.
  destruct e; simpl; now rewrite ?app_nil_r.
Qed.

Lemma anthropic_fragments_text (es : list anthropic_event) :
  List.concat (flat_map anthropic_fragment es) = List.concat (map event_text es).
Proof.
  induction es as [|e es IH]; [reflexivity|].
  cbn [flat_map map List.concat]. rewrite concat_app, IH. f_equal.
  destruct e as [[t|]|]; simpl; now rewrite ?app_nil_r.
Qed.

(** With a deterministic backend the openai and google adapters agree: the
    fragments of the stream concatenate to the text of the blocking call. *)
Lemma openai_modes_agree (up : Upstream) messages options text :
  deterministic up ->
  snd (generateChatResponse up messages (lit "openai") options) = Returned text ->
  exists fragments,
    snd (streamChatResponse up messages (lit "openai") options)
      = mkGenerated fragments (Returned tt)
    /\ List.concat fragments = text.
Proof.
  intros Hd. unfold generateChatResponse, streamChatResponse.
  cbn [jsstring_eqb lit]. simpl snd.
  destruct (openai_create up _) as [choices|] eqn:E; [|discriminate].
  intros [= <-].
  destruct (openai_same_text up Hd messages options choices E) as (s & -> & Hi & Ht).
  eexists. unfold drain, finish_of. rewrite Hi. split; [reflexivity|].
  now rewrite openai_fragments_text, Ht.
Qed.

Lemma google_modes_agree (up : Upstream) messages options text :
  deterministic up ->
  snd (generateChatResponse up messages (lit "google") options) = Returned text ->
  exists fragments,
    snd (streamChatResponse up messages (lit "google") options)
      = mkGenerated fragments (Returned tt)
    /\ List.concat fragments = text.
Proof.
  intros Hd. unfold generateChatResponse, streamChatResponse.
  destruct provider_google_dispatch as (-> & -> & ->).
  destruct (startChat_accepts (gemini_history messages)); [|discriminate].
  destruct (lastMessage messages) as [m|]; [|discriminate]. simpl snd.
  destruct (google_send up _) as [t|] eqn:E; [|discriminate].
  intros [= ->].
  destruct (google_same_text up Hd _ _ E) as (s & -> & Hi & Ht).
  eexists. unfold drain, finish_of. rewrite Hi. split; [reflexivity|].
  now rewrite google_fragments_text.
Qed.

Lemma single_text_block blocks :
  (List.length (filter is_text_block blocks) <= 1)%nat ->
  List.concat (map block_text blocks)
    = match find is_text_block blocks with
      | Some (text_block text) => text
      | _ => []
      end.
Proof.
  induction blocks as [|[text|] blocks IH]; intros Hn; [reflexivity| |].
  - cbn [filter is_text_block List.length find map List.concat block_text] in *.
    assert (Hnone : filter is_text_block blocks = [])
      by (destruct (filter is_text_block blocks); [reflexivity | simpl in Hn; lia]).
    assert (Hempty : List.concat (map block_text blocks) = []).
    { clear - Hnone. induction blocks as [|[t|] bs IHb]; [reflexivity| |].
      - discriminate Hnone.
      - cbn [filter is_text_block] in Hnone. now apply IHb. }
    rewrite Hempty. apply app_nil_r.
  - cbn [filter is_text_block find map List.concat block_text app] in *.
    now apply IH.
Qed.

(** The anthropic adapters agree as long as the answer holds at most one
    text block. *)
Lemma anthropic_modes_agree (up : Upstream) messages options blocks :
  deterministic up ->
  anthropic_create up (anthropic_request_of messages options) = Some blocks ->
  (List.length (filter is_text_block blocks) <= 1)%nat ->
  exists text fragments,
    snd (generateChatResponse up messages (lit "anthropic") options) = Returned text
    /\ snd (streamChatResponse up messages (lit "anthropic") options)
       = mkGenerated fragments (Returned tt)
    /\ List.concat fragments = text.
Proof.
  intros Hd Hb Hn. unfold generateChatResponse, streamChatResponse.
  cbn [jsstring_eqb lit]. simpl snd. rewrite Hb.
  destruct (anthropic_same_text up Hd _ _ Hb) as (s & -> & Hi & Ht).
  do 2 eexists. unfold drain, finish_of. rewrite Hi.
  split; [reflexivity|]. split; [reflexivity|].
  now rewrite anthropic_fragments_text, Ht, single_text_block.
Qed.

Lemma two_text_blocks_deterministic : deterministic two_text_blocks.
Proof.
  constructor; simpl.
  - intros _ _ choices [= <-]. eexists. repeat split.
  - intros _ blocks [= <-]. eexists. repeat split.
  - intros _ text [= <-]. eexists. repeat split.
Qed.

(** C6, evaluated where it fails.  The backend [two_text_blocks] is
    deterministic and answers with the text blocks "Hello " and "world":
    the blocking anthropic adapter returns the first block only, while the
    streaming adapter yields the deltas of both. *)
Theorem anthropic_modes_disagree :
  let messages := [mkMessage user (lit "hi")] in
  deterministic two_text_blocks
  /\ snd (generateChatResponse two_text_blocks messages (lit "anthropic") None)
       = Returned (lit "Hello ")
  /\ snd (streamChatResponse two_text_blocks messages (lit "anthropic") None)
       = mkGenerated [lit "Hello "; lit "world"] (Returned tt)
  /\ List.concat [lit "Hello "; lit "world"] <> lit "Hello ".
Proof.
  cbv zeta. split; [exact two_text_blocks_deterministic|].
  repeat split. discriminate.
Qed.

(** ** Splitting the buffer on the frame terminator *)

Lemma split_nil : split blank_line [] = [[]].
Proof. reflexivity. Qed.

Lemma split_terminator r :
  split blank_line (10 :: 10 :: r) = [] :: split blank_line r.
Proof. reflexivity. Qed.

Lemma split_other c r :
  startsWith (c :: r) blank_line = false ->
  split blank_line (c :: r) = cons_to_head c (split blank_line r).
Proof. unfold split. cbn [split_from]. now intros ->. Qed.

Lemma split_not_nil s : split blank_line s <> [].
Proof.
  unfold split. generalize 0%nat. induction s as [|c r IH]; intros k; cbn [split_from].
  - discriminate.
  - destruct k; [|apply IH].
    destruct (startsWith (c :: r) blank_line); [discriminate|].
    specialize (IH 0%nat). destruct (split_from blank_line 0 r); [contradiction|].
    discriminate.
Qed.

(** A line that holds no line feed ends at the terminator that follows it. *)
Lemma split_line l rest :
  Forall (fun x => x <> 10) l ->
  split blank_line (l ++ 10 :: 10 :: rest) = l :: split blank_line rest.
Proof.
  induction 1 as [|c l Hc _ IH]; [apply split_terminator|].
  cbn [app]. rewrite split_other, IH; [reflexivity|].
  unfold blank_line. cbn [startsWith].
  destruct (N.eqb_spec 10 c); [congruence | reflexivity].
Qed.

Lemma split_line_blank l rest :
  Forall (fun x => x <> 10) l ->
  split blank_line (l ++ blank_line ++ rest) = l :: split blank_line rest.
Proof. exact (split_line l rest). Qed.

Lemma split_from_not_nil k s : split_from blank_line k s <> [].
Proof.
  revert k. induction s as [|c r IH]; intros k; cbn [split_from].
  - discriminate.
  - destruct k; [|apply IH].
    destruct (startsWith (c :: r) blank_line); [discriminate|].
    specialize (IH 0%nat). destruct (split_from blank_line 0 r); [contradiction|].
    discriminate.
Qed.

(** Without a terminator the whole string is the single part. *)
Lemma split_singleton s p : split blank_line s = [p] -> p = s.
Proof.
  revert p. induction s as [|c r IH]; intros p.
  - now intros [= <-].
  - unfold split. cbn [split_from].
    destruct (startsWith (c :: r) blank_line).
    + intros [= _ H]. now apply split_from_not_nil in H.
    + fold (split blank_line r).
      destruct (split blank_line r) as [|p' [|q l]] eqn:E; cbn [cons_to_head].
      * now apply split_not_nil in E.
      * intros [= <-]. now rewrite (IH p' eq_refl).
      * discriminate.
Qed.

Lemma startsWith_app_false c r t :
  r <> [] -> startsWith (c :: r) blank_line = false ->
  startsWith (c :: r ++ t) blank_line = false.
Proof.
  intros Hr. destruct r as [|d r]; [contradiction|].
  unfold blank_line. cbn [startsWith app]. auto.
Qed.

Lemma startsWith_blank_line s :
  startsWith s blank_line = true -> exists r, s = 10 :: 10 :: r.
Proof.
  unfold blank_line. destruct s as [|c [|d r]]; cbn [startsWith];
    rewrite ?andb_false_r; try discriminate.
  rewrite andb_true_r. intros H. apply andb_true_iff in H as [H1 H2].
  apply N.eqb_eq in H1, H2. subst. now exists r.
Qed.

(** Splitting is incremental: the parts closed by a terminator in [s] stay
    as they are when more text arrives, and the open part is split again
    together with the new text. *)
Lemma split_app_length (n : nat) : forall s t,
  (List.length s <= n)%nat ->
  split blank_line (s ++ t)
    = removelast (split blank_line s)
      ++ split blank_line (last (split blank_line s) [] ++ t).
Proof.
  induction n as [|n IH]; intros s t Hn.
  { destruct s; [reflexivity | simpl in Hn; lia]. }
  destruct (split blank_line s) as [|p [|q l]] eqn:E.
  - now apply split_not_nil in E.
  - apply split_singleton in E. now subst.
  - destruct s as [|c r]; [discriminate|]. cbn [List.length] in Hn.
    destruct (startsWith (c :: r) blank_line) eqn:Hsw.
    + apply startsWith_blank_line in Hsw as [r' [= -> ->]].
      rewrite split_terminator in E. injection E as <- E.
      cbn [app]. rewrite split_terminator.
      cbn [List.length] in Hn. rewrite (IH r' t ltac:(lia)), E.
      reflexivity.
    + rewrite split_other in E by exact Hsw.
      destruct (split blank_line r) as [|p' [|q' l']] eqn:Er;
        cbn [cons_to_head] in E; try discriminate.
      injection E as <- <- <-.
      assert (Hr : r <> []) by (intros ->; discriminate).
      cbn [app]. rewrite split_other by now apply startsWith_app_false.
      rewrite (IH r t ltac:(lia)), Er. reflexivity.
Qed.

Lemma split_app s t :
  split blank_line (s ++ t)
    = removelast (split blank_line s)
      ++ split blank_line (last (split blank_line s) [] ++ t).
Proof. now apply (split_app_length (List.length s)). Qed.

(** ** The frames on the wire *)

Lemma ascii_no_control s :
  Forall ascii_printable s -> Forall (fun x => 0x20 <= x) s.
Proof. apply Forall_impl. unfold ascii_printable. lia. Qed.

Ltac ascii_literal :=
  unfold ascii_printable; cbn;
  repeat (apply Forall_cons; [lia|]); apply Forall_nil.

Lemma stringify_content_spec chunk :
  js_string chunk ->
  well_formed (JSON.stringify_content chunk)
  /\ Forall (fun x => 0x20 <= x) (JSON.stringify_content chunk).
Proof.
  intros Hs. destruct (QuoteJSONString_spec chunk Hs) as (Hw & Hp & _).
  unfold JSON.stringify_content.
  change (JSON.QuoteJSONString (lit "content")) with (34 :: lit "content" ++ [34]).
  assert (Ha : Forall ascii_printable (123 :: 34 :: lit "content" ++ [34; 58]))
    by ascii_literal.
  assert (Hb : Forall ascii_printable [125])
    by ascii_literal.
  change (123 :: (34 :: lit "content" ++ [34]) ++ 58 :: JSON.QuoteJSONString chunk ++ [125])
    with ((123 :: 34 :: lit "content" ++ [34; 58]) ++ JSON.QuoteJSONString chunk ++ [125]).
  split.
  - apply well_formed_app; [now apply ascii_well_formed|].
    apply well_formed_app; [exact Hw | now apply ascii_well_formed].
  - apply Forall_app. split; [now apply ascii_no_control|].
    apply Forall_app. split; [exact Hp | now apply ascii_no_control].
Qed.

Lemma data_line_spec chunk :
  js_string chunk ->
  well_formed (data_line chunk) /\ Forall (fun x => x <> 10) (data_line chunk).
Proof.
  intros Hs. destruct (stringify_content_spec chunk Hs) as [Hw Hp].
  assert (Ha : Forall ascii_printable (lit "data: "))
    by ascii_literal.
  unfold data_line. split.
  - apply well_formed_app; [now apply ascii_well_formed | exact Hw].
  - apply Forall_app. split.
    + eapply Forall_impl; [|exact Ha]. unfold ascii_printable. lia.
    + eapply Forall_impl; [|exact Hp]. cbn beta. lia.
Qed.

Lemma blank_line_well_formed : well_formed blank_line.
Proof.
  unfold blank_line. repeat (apply wf_unit; [lia | reflexivity |]). constructor.
Qed.

Lemma frame_encodes chunk :
  frame chunk = UTF8.encode (data_line chunk ++ blank_line).
Proof. unfold frame, TextEncoder_encode, data_line. now rewrite app_assoc. Qed.

Lemma sentinel_well_formed : well_formed (sentinel_line ++ blank_line).
Proof.
  apply well_formed_app; [|exact blank_line_well_formed].
  apply ascii_well_formed. ascii_literal.
Qed.

Lemma framed_text_well_formed fragments :
  Forall js_string fragments -> well_formed (framed_text fragments).
Proof.
  unfold framed_text. induction 1 as [|f fs Hf _ IH]; cbn [map List.concat app].
  - exact sentinel_well_formed.
  - rewrite <- app_assoc. apply well_formed_app; [|exact IH].
    apply well_formed_app; [now apply data_line_spec | exact blank_line_well_formed].
Qed.

(** The bytes on the wire are the UTF-8 encoding of the framed text. *)
Lemma framed_bytes_encode fragments :
  Forall js_string fragments ->
  framed_bytes fragments = UTF8.encode (framed_text fragments).
Proof.
  unfold framed_bytes, framed_text.
  induction 1 as [|f fs Hf Hfs IH]; cbn [map List.concat app].
  - now rewrite app_nil_r.
  - rewrite IH, frame_encodes, <- app_assoc. symmetry. apply encode_app.
    apply well_formed_app; [now apply data_line_spec | exact blank_line_well_formed].
Qed.

Lemma framed_text_head fragments :
  exists s, framed_text fragments = 100 :: s.
Proof.
  unfold framed_text. destruct fragments as [|f fs]; cbn [map List.concat app].
  - eexists. reflexivity.
  - unfold data_line. cbn [lit map list_ascii_of_string app]. eexists. reflexivity.
Qed.

(** The reader decodes the framed bytes back to the framed text. *)
Lemma decode_framed_bytes fragments :
  Forall js_string fragments ->
  decode_stream new_TextDecoder (framed_bytes fragments)
    = (mkTextDecoder UTF8.initial true, framed_text fragments).
Proof.
  intros Hs. rewrite framed_bytes_encode by exact Hs.
  pose proof (framed_text_well_formed fragments Hs) as Hw.
  destruct (framed_text_head fragments) as [s E]. rewrite E in *.
  apply decode_encode; [lia | exact Hw].
Qed.

(** The framed text splits into one line per fragment, the sentinel line
    and an empty remainder. *)
Lemma split_framed_text fragments :
  Forall js_string fragments ->
  split blank_line (framed_text fragments)
    = map data_line fragments ++ [sentinel_line; []].
Proof.
  unfold framed_text. induction 1 as [|f fs Hf _ IH]; cbn [map List.concat app].
  - reflexivity.
  - rewrite <- !app_assoc.
    rewrite split_line_blank by now apply data_line_spec.
    now rewrite IH.
Qed.

Lemma data_line_not_sentinel chunk : is_sentinel (data_line chunk) = false.
Proof. reflexivity. Qed.

(** ** The reassembler *)

Section ReassemblerFacts.

Variable ts : JSON.value -> jsstring.

Lemma read_loop_text values : forall decoder buffer st,
  read_loop ts values decoder buffer st
    = text_loop ts (decode_chunks decoder values) buffer st.
Proof.
  induction values as [|v later IH]; intros decoder buffer st; [reflexivity|].
  cbn [read_loop decode_chunks].
  destruct (decode_stream decoder v) as [d' chunk]. cbn [text_loop].
  apply IH.
Qed.

Lemma decode_chunks_concat values : forall decoder,
  List.concat (decode_chunks decoder values)
    = snd (decode_stream decoder (List.concat values)).
Proof.
  induction values as [|v later IH]; intros decoder.
  - destruct decoder as [u seen]. reflexivity.
  - cbn [decode_chunks List.concat]. rewrite decode_stream_app.
    destruct (decode_stream decoder v) as [d' chunk].
    cbn [List.concat]. rewrite IH.
    now destruct (decode_stream d' (List.concat later)).
Qed.

(** Lines before a sentinel are all processed. *)
Lemma for_lines_app l1 l2 st :
  Forall (fun l => is_sentinel l = false) l1 ->
  for_lines ts (l1 ++ l2) st = for_lines ts l2 (for_lines ts l1 st).
Proof.
  intros H. revert st. induction H as [|l l1 Hl _ IH]; intros st; [reflexivity|].
  cbn [app for_lines]. unfold is_sentinel in Hl.
  destruct (startsWith l (lit "data: ")); [|apply IH].
  cbn [andb] in Hl. rewrite Hl. apply IH.
Qed.

Lemma removelast_split_app s t :
  removelast (split blank_line (s ++ t))
    = removelast (split blank_line s)
      ++ removelast (split blank_line (last (split blank_line s) [] ++ t)).
Proof.
  rewrite split_app. apply removelast_app, split_not_nil.
Qed.

(** The part left in the buffer holds no terminator. *)
Lemma split_last s :
  split blank_line (last (split blank_line s) []) = [last (split blank_line s) []].
Proof.
  pose proof (split_app s []) as H. rewrite app_nil_r in H.
  rewrite (app_removelast_last [] (split_not_nil s)) in H at 1.
  apply app_inv_head in H. rewrite app_nil_r in H. now symmetry.
Qed.

(** When no line but the last is the sentinel, the loop processes the lines
    of the whole text, however the text was cut into chunks. *)
Lemma text_loop_whole texts : forall buffer st,
  split blank_line buffer = [buffer] ->
  Forall (fun l => is_sentinel l = false)
    (removelast (removelast (split blank_line (buffer ++ List.concat texts)))) ->
  text_loop ts texts buffer st
    = for_lines ts (removelast (split blank_line (buffer ++ List.concat texts))) st.
Proof.
  induction texts as [|chunk later IH]; intros buffer st Hb Hs.
  - cbn [List.concat text_loop]. rewrite app_nil_r, Hb. reflexivity.
  - cbn [List.concat text_loop] in *. rewrite app_assoc in *.
    rewrite (removelast_split_app (buffer ++ chunk) (List.concat later)) in *.
    set (l1 := removelast (split blank_line (buffer ++ chunk))) in *.
    set (b1 := last (split blank_line (buffer ++ chunk)) []) in *.
    assert (Hb1 : split blank_line b1 = [b1]) by apply split_last.
    destruct (removelast (split blank_line (b1 ++ List.concat later)))
      as [|x l2] eqn:E2.
    + rewrite app_nil_r, IH, E2; [reflexivity | exact Hb1 | rewrite E2; constructor].
    + rewrite removelast_app in Hs by discriminate.
      apply Forall_app in Hs as [Hs1 Hs2].
      rewrite for_lines_app by exact Hs1.
      rewrite IH, E2; [reflexivity | exact Hb1 | now rewrite E2].
Qed.

(** However the bytes are cut into chunks, the loop does what it does on
    the bytes read in one piece, provided no line but the last is the
    sentinel. *)
Lemma read_loop_chunking values st :
  Forall (fun l => is_sentinel l = false)
    (removelast (removelast
       (split blank_line (snd (decode_stream new_TextDecoder (List.concat values)))))) ->
  read_loop ts values new_TextDecoder [] st
    = read_loop ts [List.concat values] new_TextDecoder [] st.
Proof.
  intros Hs. rewrite !read_loop_text.
  rewrite text_loop_whole;
    [| reflexivity | cbn [app]; now rewrite decode_chunks_concat].
  cbn [app decode_chunks]. rewrite decode_chunks_concat.
  destruct (decode_stream new_TextDecoder (List.concat values)) as [d' text].
  reflexivity.
Qed.

Lemma append_to_last_snoc text ms m :
  append_to_last text (ms ++ [m])
    = ms ++ [mkMessage (role m) (content m ++ text)].
Proof.
  induction ms as [|x ms IH]; [reflexivity|].
  cbn [app append_to_last]. rewrite IH.
  destruct (ms ++ [m]) eqn:E; [now destruct ms | reflexivity].
Qed.

(** The state after the fragments have been appended to the last message. *)
Lemma append_fragments fragments : forall st ms m,
  messages st = ms ++ [m] ->
  fold_left (fun st f => setMessages (append_to_last f) st) fragments st
    = mkClientState
        (ms ++ [mkMessage (role m) (content m ++ List.concat fragments)])
        (input st) (isLoading st) (toasts st) (console st).
Proof.
  induction fragments as [|f fs IH]; intros st ms m Hm.
  - cbn [fold_left List.concat]. rewrite app_nil_r.
    destruct st, m. cbn in *. now rewrite Hm.
  - cbn [fold_left List.concat].
    rewrite (IH _ ms (mkMessage (role m) (content m ++ f))).
    + cbn. now rewrite <- app_assoc.
    + cbn [setMessages messages]. rewrite Hm. apply append_to_last_snoc.
Qed.

(** A frame written by the framer appends its fragment. *)
Lemma on_data_stringify chunk st :
  js_string chunk ->
  on_data ts (JSON.stringify_content chunk) st
    = setMessages (append_to_last chunk) st.
Proof.
  intros Hs. unfold on_data. now rewrite parse_stringify_content.
Qed.

Lemma for_lines_data_line chunk rest st :
  js_string chunk ->
  for_lines ts (data_line chunk :: rest) st
    = for_lines ts rest (setMessages (append_to_last chunk) st).
Proof.
  intros Hs. cbn [for_lines].
  change (startsWith (data_line chunk) (lit "data: ")) with true.
  change (slice 6 (data_line chunk)) with (JSON.stringify_content chunk).
  change (jsstring_eqb (JSON.stringify_content chunk) (lit "[DONE]")) with false.
  cbv iota. now rewrite on_data_stringify.
Qed.

Lemma for_lines_data_lines fragments : forall rest st,
  Forall js_string fragments ->
  for_lines ts (map data_line fragments ++ rest) st
    = for_lines ts rest
        (fold_left (fun st f => setMessages (append_to_last f) st) fragments st).
Proof.
  induction fragments as [|f fs IH]; intros rest st Hs; [reflexivity|].
  inversion Hs; subst. cbn [map app fold_left].
  rewrite for_lines_data_line by assumption. now apply IH.
Qed.

(** One iteration of the read loop on a frame that arrives as one chunk. *)
Lemma read_loop_frame decoder chunk later st :
  decoder = new_TextDecoder \/ decoder = mkTextDecoder UTF8.initial true ->
  js_string chunk ->
  read_loop ts (frame chunk :: later) decoder [] st
    = read_loop ts later (mkTextDecoder UTF8.initial true) []
        (setMessages (append_to_last chunk) st).
Proof.
  intros Hd Hs. destruct (data_line_spec chunk Hs) as [Hw Hn].
  assert (Hwf : well_formed (data_line chunk ++ blank_line))
    by (apply well_formed_app; [exact Hw | exact blank_line_well_formed]).
  assert (E : decode_stream decoder (frame chunk)
              = (mkTextDecoder UTF8.initial true, data_line chunk ++ blank_line)).
  { rewrite frame_encodes. destruct Hd as [-> | ->].
    - unfold data_line in *. cbn [lit map list_ascii_of_string app] in *.
      apply decode_encode; [cbn; lia | exact Hwf].
    - now apply decode_encode_seen. }
  cbn [read_loop]. rewrite E. cbn [app].
  replace (data_line chunk ++ blank_line)
    with (data_line chunk ++ blank_line ++ []) by now rewrite app_nil_r.
  rewrite split_line_blank by exact Hn. rewrite split_nil.
  cbn [last removelast]. now rewrite for_lines_data_line.
Qed.

Lemma read_loop_frames fragments : forall decoder later st,
  decoder = new_TextDecoder \/ decoder = mkTextDecoder UTF8.initial true ->
  Forall js_string fragments ->
  exists decoder',
    (decoder' = new_TextDecoder \/ decoder' = mkTextDecoder UTF8.initial true)
    /\ read_loop ts (map frame fragments ++ later) decoder [] st
       = read_loop ts later decoder' []
           (fold_left (fun st f => setMessages (append_to_last f) st) fragments st).
Proof.
  induction fragments as [|f fs IH]; intros decoder later st Hd Hs.
  - exists decoder. now split.
  - inversion Hs; subst. cbn [map app fold_left].
    rewrite read_loop_frame by assumption. apply IH; [now right | assumption].
Qed.

(** The terminal frame changes nothing. *)
Lemma read_loop_done decoder st :
  decoder = new_TextDecoder \/ decoder = mkTextDecoder UTF8.initial true ->
  read_loop ts [done_frame] decoder [] st = st.
Proof. intros [-> | ->]; reflexivity. Qed.

(** The handler, once the request is sent and answered with status 200 and
    a body: the user and the assistant message are pushed, the body is read,
    and the loading flag is cleared. *)
Lemma handleSubmit_reads st b :
  trim_is_empty (input st) = false -> isLoading st = false ->
  handleSubmit ts (FetchResponse 200 (Some b)) st
    = setIsLoading false
        (let st3 := read_loop ts (chunks b) new_TextDecoder [] (answered st [] true) in
         match ending b with
         | EndOfInput => st3
         | ReadError => catch_chat_error st3
         end).
Proof.
  intros Hi Hl. unfold handleSubmit. rewrite Hi, Hl. cbn [orb].
  change (response_ok 200) with true. cbn [negb].
  unfold answered, setMessages, setInput, setIsLoading, assistantMessage.
  cbn [messages input isLoading toasts console]. now rewrite <- app_assoc.
Qed.

Lemma fragments_answered st fragments :
  fold_left (fun st f => setMessages (append_to_last f) st) fragments
    (answered st [] true)
    = answered st (List.concat fragments) true.
Proof.
  rewrite (append_fragments fragments _
             (messages st ++ [mkMessage user (input st)]) (mkMessage assistant [])).
  - unfold answered. cbn. now rewrite <- app_assoc.
  - unfold answered. cbn [messages]. now rewrite <- app_assoc.
Qed.

(** What the loop leaves when the framed bytes of [fragments] arrive in any
    chunking. *)
Lemma read_loop_framed values fragments st :
  Forall js_string fragments ->
  List.concat values = framed_bytes fragments ->
  read_loop ts values new_TextDecoder [] st
    = fold_left (fun st f => setMessages (append_to_last f) st) fragments st.
Proof.
  intros Hs Hv.
  assert (Hsplit : removelast (split blank_line (framed_text fragments))
                   = map data_line fragments ++ [sentinel_line]).
  { rewrite split_framed_text by exact Hs.
    change [sentinel_line; []] with ([sentinel_line] ++ [[]]).
    rewrite app_assoc. apply removelast_last. }
  rewrite read_loop_chunking.
  - cbn [read_loop]. rewrite Hv, decode_framed_bytes by exact Hs.
    cbn [app]. rewrite Hsplit, for_lines_data_lines by exact Hs. reflexivity.
  - rewrite Hv, decode_framed_bytes by exact Hs. cbn [snd].
    rewrite Hsplit, removelast_last.
    apply Forall_forall. intros l Hl. apply in_map_iff in Hl as (f & <- & _).
    apply data_line_not_sentinel.
Qed.

(** The loop over the frames as the route enqueues them, with and without
    the terminal frame. *)
Lemma read_loop_frames_only fragments st :
  Forall js_string fragments ->
  read_loop ts (map frame fragments) new_TextDecoder [] (answered st [] true)
    = answered st (List.concat fragments) true.
Proof.
  intros Hs.
  destruct (read_loop_frames fragments new_TextDecoder []
              (answered st [] true) (or_introl eq_refl) Hs) as (d & Hd & E).
  rewrite app_nil_r in E. rewrite E. cbn [read_loop]. apply fragments_answered.
Qed.

Lemma read_loop_frames_done fragments st :
  Forall js_string fragments ->
  read_loop ts (map frame fragments ++ [done_frame]) new_TextDecoder []
    (answered st [] true)
    = answered st (List.concat fragments) true.
Proof.
  intros Hs.
  destruct (read_loop_frames fragments new_TextDecoder [done_frame]
              (answered st [] true) (or_introl eq_refl) Hs) as (d & Hd & ->).
  rewrite read_loop_done by exact Hd. apply fragments_answered.
Qed.

(** C1, amended.  The frames of any fragments, each framed as
    [data: ] + JSON of [{content: f}] + a blank line and followed by the
    terminal frame, fed to the reassembler as the route enqueues them (one
    chunk per frame), leave the assistant message with the concatenation of
    the fragments as its content, whatever characters they hold.  The
    terminal frame marks nothing: the state after it is the state after the
    last fragment, with the loading flag still set.  The flag is cleared
    when the input ends, and a read that fails after the terminal frame is
    reported like any other. *)
Theorem framing_round_trip (fragments : list jsstring) (st : ClientState) :
  Forall js_string fragments ->
  trim_is_empty (input st) = false -> isLoading st = false ->
  let frames := map frame fragments in
  let opened :=
    setMessages (fun prev => prev ++ [assistantMessage]) (submitted st) in
  handleSubmit ts
    (FetchResponse 200 (Some (mkBodyStream (frames ++ [done_frame]) EndOfInput))) st
  = answered st (List.concat fragments) false
  /\ read_loop ts (frames ++ [done_frame]) new_TextDecoder [] opened
     = answered st (List.concat fragments) true
  /\ read_loop ts (frames ++ [done_frame]) new_TextDecoder [] opened
     = read_loop ts frames new_TextDecoder [] opened
  /\ handleSubmit ts
       (FetchResponse 200 (Some (mkBodyStream (frames ++ [done_frame]) ReadError))) st
     = toast_error SomethingWentWrong
         (console_error ChatError (answered st (List.concat fragments) false)).
Proof.
  intros Hs Hi Hl. cbv zeta.
  assert (Ho : setMessages (fun prev => prev ++ [assistantMessage]) (submitted st)
               = answered st [] true).
  { unfold answered, submitted, setMessages, setInput, setIsLoading, assistantMessage.
    cbn [messages input isLoading toasts console]. now rewrite <- app_assoc. }
  rewrite Ho, !handleSubmit_reads by assumption.
  cbn [chunks ending].
  rewrite read_loop_frames_only, read_loop_frames_done by exact Hs.
  repeat split.
Qed.

(** C2.  The framed bytes of any fragments, cut into chunks in any way
    (inside a multi-byte character, inside the JSON payload, inside the
    terminator), leave the client in the state that the same bytes leave
    when read as one chunk; that state holds the concatenation of the
    fragments. *)
Theorem chunking_is_irrelevant (fragments : list jsstring) (values : list bytes)
  (status : N) (e : stream_end) (st : ClientState) :
  Forall js_string fragments ->
  List.concat values = framed_bytes fragments ->
  handleSubmit ts (FetchResponse status (Some (mkBodyStream values e))) st
  = handleSubmit ts
      (FetchResponse status (Some (mkBodyStream [framed_bytes fragments] e))) st
  /\ read_loop ts values new_TextDecoder [] (answered st [] true)
     = answered st (List.concat fragments) true.
Proof.
  intros Hs Hv. split.
  - unfold handleSubmit. cbn [chunks ending].
    rewrite (read_loop_framed values fragments) by assumption.
    rewrite (read_loop_framed [framed_bytes fragments] fragments);
      [reflexivity | assumption | cbn [List.concat]; apply app_nil_r].
  - rewrite (read_loop_framed values fragments) by assumption.
    apply fragments_answered.
Qed.

(** C3, amended.  When the input ends after the frames of some fragments
    and no sentinel, the reassembler keeps the content accumulated so far
    and finishes exactly as it does when the sentinel was observed: the
    loading flag is cleared and nothing is reported.  What the caller can
    tell apart is a read that fails: the content is kept as well, and the
    failure is reported on the console and as a toast. *)
Theorem end_of_input_without_sentinel (fragments : list jsstring)
  (st : ClientState) :
  Forall js_string fragments ->
  trim_is_empty (input st) = false -> isLoading st = false ->
  handleSubmit ts
    (FetchResponse 200 (Some (mkBodyStream (map frame fragments) EndOfInput))) st
  = handleSubmit ts
      (FetchResponse 200
         (Some (mkBodyStream (map frame fragments ++ [done_frame]) EndOfInput))) st
  /\ handleSubmit ts
       (FetchResponse 200 (Some (mkBodyStream (map frame fragments) EndOfInput))) st
     = answered st (List.concat fragments) false
  /\ handleSubmit ts
       (FetchResponse 200 (Some (mkBodyStream (map frame fragments) ReadError))) st
     = toast_error SomethingWentWrong
         (console_error ChatError (answered st (List.concat fragments) false)).
Proof.
  intros Hs Hi Hl. rewrite !handleSubmit_reads by assumption.
  cbn [chunks ending].
  rewrite read_loop_frames_only, read_loop_frames_done by exact Hs.
  repeat split.
Qed.

End ReassemblerFacts.

(** ** Examples *)

(** The round trip on fragments with a quote, a line feed, a control
    character, an emoji and a lone surrogate. *)
Lemma framing_round_trip_witness :
  handleSubmit no_other
    (FetchResponse 200
       (Some (mkBodyStream (map frame example_fragments ++ [done_frame]) EndOfInput)))
    example_state
  = answered example_state (List.concat example_fragments) false.
Proof.
  refine (proj1 (framing_round_trip no_other example_fragments example_state
                   _ eq_refl eq_refl)).
  now apply js_strings_check.
Defined.

(** The framed bytes of "\u00E9" and "ok", cut between the two bytes of the
    first character. *)
Lemma chunking_is_irrelevant_witness :
  read_loop no_other
    [firstn 19 (framed_bytes [[0xE9]; lit "ok"]);
     skipn 19 (framed_bytes [[0xE9]; lit "ok"])]
    new_TextDecoder [] (answered example_state [] true)
  = answered example_state (0xE9 :: lit "ok") true.
Proof.
  refine (proj2 (chunking_is_irrelevant no_other [[0xE9]; lit "ok"]
                   [firstn 19 (framed_bytes [[0xE9]; lit "ok"]);
                    skipn 19 (framed_bytes [[0xE9]; lit "ok"])]
                   200 EndOfInput example_state _ _)).
  - now apply js_strings_check.
  - cbn [List.concat]. rewrite app_nil_r. apply firstn_skipn.
Defined.

(** The read fails after the frames of "Hel" and "lo". *)
Lemma end_of_input_without_sentinel_witness :
  handleSubmit no_other
    (FetchResponse 200
       (Some (mkBodyStream (map frame [lit "Hel"; lit "lo"]) ReadError))) example_state
  = toast_error SomethingWentWrong
      (console_error ChatError (answered example_state (lit "Hello") false)).
Proof.
  refine (proj2 (proj2 (end_of_input_without_sentinel no_other
                          [lit "Hel"; lit "lo"] example_state _ _ _)));
    [|reflexivity|reflexivity].
  now apply js_strings_check.
Defined.

(** The condition on the sentinel in [read_loop_chunking] is needed: the
    sentinel only leaves the loop over the lines of the chunk it arrived in,
    so a frame after it is dropped when both arrive together and appended
    when it arrives in a later chunk.  The framer writes no such stream. *)
Lemma sentinel_leaves_only_its_batch :
  let late := TextEncoder_encode (data_line (lit "x") ++ blank_line) in
  read_loop no_other [done_frame ++ late] new_TextDecoder []
    (answered example_state [] true)
    = answered example_state [] true
  /\ read_loop no_other [done_frame; late] new_TextDecoder []
       (answered example_state [] true)
     = answered example_state (lit "x") true.
Proof. split; vm_compute; reflexivity. Qed.

(** C1, as stated, fails: nothing marks the message complete.  After the
    frame of "Hi" and the terminal frame the state is the one the frame of
    "Hi" alone leaves, with the loading flag still set, and a read that
    fails after the terminal frame is reported as an error. *)
Lemma terminal_frame_marks_nothing :
  read_loop no_other [frame (lit "Hi"); done_frame] new_TextDecoder []
    (setMessages (fun prev => prev ++ [assistantMessage]) (submitted example_state))
  = read_loop no_other [frame (lit "Hi")] new_TextDecoder []
      (setMessages (fun prev => prev ++ [assistantMessage]) (submitted example_state))
  /\ read_loop no_other [frame (lit "Hi"); done_frame] new_TextDecoder []
       (setMessages (fun prev => prev ++ [assistantMessage]) (submitted example_state))
     = mkClientState
         [mkMessage user (lit "hello"); mkMessage assistant (lit "Hi")]
         [] true [] []
  /\ handleSubmit no_other
       (FetchResponse 200
          (Some (mkBodyStream [frame (lit "Hi"); done_frame] ReadError)))
       example_state
     = mkClientState
         [mkMessage user (lit "hello"); mkMessage assistant (lit "Hi")]
         [] false [SomethingWentWrong] [ChatError].
Proof. repeat split; vm_compute; reflexivity. Qed.

(** C3, as stated, fails: after the fragments "Hel" and "lo" the input ends
    without the sentinel, and the handler leaves the very state it leaves
    when the sentinel was observed before the end of input. *)
Lemma missing_sentinel_goes_unnoticed :
  handleSubmit no_other
    (FetchResponse 200
       (Some (mkBodyStream [frame (lit "Hel"); frame (lit "lo")] EndOfInput)))
    example_state
  = handleSubmit no_other
      (FetchResponse 200
         (Some (mkBodyStream [frame (lit "Hel"); frame (lit "lo"); done_frame] EndOfInput)))
      example_state
  /\ handleSubmit no_other
       (FetchResponse 200
          (Some (mkBodyStream [frame (lit "Hel"); frame (lit "lo")] EndOfInput)))
       example_state
     = mkClientState
         [mkMessage user (lit "hello"); mkMessage assistant (lit "Hello")]
         [] false [] [].
Proof. split; vm_compute; reflexivity. Qed.

(** C10, as stated, fails: the payload [null] is valid JSON without a
    [content] field, yet the frame is skipped: destructuring [null] throws
    inside the [try], the error is logged, and nothing is appended. *)
Lemma null_payload_is_skipped :
  handleSubmit no_other
    (FetchResponse 200
       (Some (mkBodyStream [TextEncoder_encode (lit "data: null" ++ blank_line)] EndOfInput)))
    example_state
  = mkClientState
      [mkMessage user (lit "hello"); mkMessage assistant []]
      [] false [] [ErrorParsingJSONChunk].
Proof. vm_compute. reflexivity. Qed.

Lemma DONE_is_not_JSON data :
  JSON.parse data <> None -> jsstring_eqb data (lit "[DONE]") = false.
Proof.
  intros H. destruct (jsstring_eqb data (lit "[DONE]")) eqn:E; [|reflexivity].
  apply jsstring_eqb_eq in E. subst. now contradiction H.
Qed.

(** C10, amended.  A complete frame that the loop reaches, whose payload
    parses as a JSON value other than [null] with no [content] member (an
    object such as [{}], an array, a string, a number, a boolean), appends
    the literal string "undefined" to the content of the last message.  A
    payload [null] appends nothing: the frame is logged and skipped. *)
Theorem frame_without_content (ts : JSON.value -> jsstring)
  (data : jsstring) (parsed : JSON.value) (rest : list jsstring)
  (st : ClientState) (ms : list Message) (m : Message) :
  JSON.parse data = Some parsed ->
  has_no_content parsed ->
  messages st = ms ++ [m] ->
  for_lines ts ((lit "data: " ++ data) :: rest) st
  = for_lines ts rest
      (if match parsed with JSON.JNull => true | _ => false end
       then console_error ErrorParsingJSONChunk st
       else mkClientState
              (ms ++ [mkMessage (role m) (content m ++ lit "undefined")])
              (input st) (isLoading st) (toasts st) (console st)).
Proof.
  intros Hp Hc Hm. cbn [for_lines].
  change (startsWith (lit "data: " ++ data) (lit "data: ")) with true.
  change (slice 6 (lit "data: " ++ data)) with data. cbv iota.
  rewrite DONE_is_not_JSON by (rewrite Hp; discriminate).
  f_equal. unfold on_data. rewrite Hp.
  assert (Hu : setMessages (append_to_last (ToString ts Undefined)) st
               = mkClientState
                   (ms ++ [mkMessage (role m) (content m ++ lit "undefined")])
                   (input st) (isLoading st) (toasts st) (console st)).
  { unfold setMessages. now rewrite Hm, append_to_last_snoc. }
  destruct parsed; cbn [destructure_content]; try exact Hu.
  - reflexivity.
  - cbn [has_no_content] in Hc. rewrite Hc. exact Hu.
Qed.

(** The frame [data: {}] after the content "Hi". *)
Lemma frame_without_content_witness :
  for_lines no_other [lit "data: {}"] (answered example_state (lit "Hi") true)
  = answered example_state (lit "Hiundefined") true.
Proof.
  exact (frame_without_content no_other (lit "{}") (JSON.JObject []) []
           (answered example_state (lit "Hi") true)
           [mkMessage user (lit "hello")] (mkMessage assistant (lit "Hi"))
           eq_refl eq_refl eq_refl).
Defined.

(** * Further properties *)

(** ** The generator *)

(** X11.  For the same messages, provider and options the blocking and the
    streaming operation contact the same backend with the same request
    (for openai the [stream] flag aside), or neither contacts any; neither
    makes more than one upstream call, also when the backend fails. *)
Theorem modes_send_the_same_request (up : Upstream)
  (messages : list ChatMessage) (provider : jsstring)
  (options : option GenerationOptions) :
  fst (generateChatResponse up messages provider options)
    = map blocking_counterpart (fst (streamChatResponse up messages provider options))
  /\ (List.length (fst (streamChatResponse up messages provider options)) <= 1)%nat
  /\ Forall (fun c => is_streaming_call c = true)
       (fst (streamChatResponse up messages provider options))
  /\ Forall (fun c => is_streaming_call c = false)
       (fst (generateChatResponse up messages provider options)).
Proof.
  unfold generateChatResponse, streamChatResponse.
  destruct (jsstring_eqb provider (lit "openai")).
  { cbn. repeat split; repeat constructor. }
  destruct (jsstring_eqb provider (lit "anthropic")).
  { cbn. repeat split; repeat constructor. }
  destruct (jsstring_eqb provider (lit "google")).
  - destruct (startChat_accepts (gemini_history messages));
      [destruct (lastMessage messages)|]; cbn; repeat split; repeat constructor.
  - cbn. repeat split; repeat constructor.
Qed.

Lemma lastMessage_none (messages : list ChatMessage) :
  lastMessage messages = None <-> messages = [].
Proof.
  split; [|now intros ->].
  destruct messages as [|m ms]; [reflexivity|].
  rewrite (lastMessage_last (m :: ms) m) by discriminate. discriminate.
Qed.

(** X12.  For the google provider no upstream call is made on two kinds
    of input, in both modes: the empty list, on which reading the content
    of the missing last message throws a [TypeError], and a list of two or
    more messages whose first is not the user's, whose history [startChat]
    rejects.  Every other list makes exactly one upstream call. *)
Theorem google_empty_messages (up : Upstream) (messages : list ChatMessage)
  (options : option GenerationOptions) :
  (messages = [] <->
   generateChatResponse up messages (lit "google") options = ([], Threw TypeError))
  /\ (messages = [] <->
      streamChatResponse up messages (lit "google") options
        = ([], mkGenerated [] (Threw TypeError)))
  /\ (~ history_accepted messages <->
      generateChatResponse up messages (lit "google") options
        = ([], Threw GoogleGenerativeAIError))
  /\ (~ history_accepted messages <->
      streamChatResponse up messages (lit "google") options
        = ([], mkGenerated [] (Threw GoogleGenerativeAIError)))
  /\ (messages <> [] -> history_accepted messages ->
      List.length (fst (generateChatResponse up messages (lit "google") options)) = 1%nat
      /\ List.length (fst (streamChatResponse up messages (lit "google") options)) = 1%nat).
Proof.
  unfold generateChatResponse, streamChatResponse.
  destruct provider_google_dispatch as (-> & -> & ->).
  destruct (startChat_accepts (gemini_history messages)) eqn:Es.
  - assert (Ha : history_accepted messages) by now apply startChat_accepts_history.
    destruct (lastMessage messages) as [m|] eqn:E.
    + assert (Hne : messages <> [])
        by (intros H; apply lastMessage_none in H; congruence).
      repeat apply conj; try discriminate; try (intros H; now contradiction H).
      intros _ _. split; reflexivity.
    + apply lastMessage_none in E. subst.
      repeat apply conj; try discriminate; try reflexivity;
        try (intros H; now contradiction H).
  - assert (Hr : ~ history_accepted messages) by now apply startChat_rejects_history.
    assert (Hne : messages <> []) by (intros ->; apply Hr; exact I).
    repeat apply conj; try discriminate; try reflexivity;
      try (intros H; now contradiction H).
    + intros _. exact Hr.
    + intros _. exact Hr.
    + intros _ H. now contradiction Hr.
Qed.

Lemma google_empty_messages_witness :
  List.length (fst (streamChatResponse quiet_upstream
                      [mkMessage user (lit "hi")] (lit "google") None)) = 1%nat.
Proof.
  refine (proj2 (proj2 (proj2 (proj2 (proj2 (google_empty_messages quiet_upstream
            [mkMessage user (lit "hi")] None)))) _ _)).
  - discriminate.
  - exact I.
Defined.

Lemma flat_map_filter_text {A : Type} (fragment : A -> list jsstring)
  (keep : A -> bool) (es : list A) :
  (forall a, keep a = false -> fragment a = []) ->
  flat_map fragment (filter keep es) = flat_map fragment es.
Proof.
  intros Hk. induction es as [|a es IH]; [reflexivity|].
  cbn [filter flat_map]. destruct (keep a) eqn:E.
  - cbn [flat_map]. now rewrite IH.
  - now rewrite (Hk a E), IH.
Qed.

Lemma drain_strip {A : Type} (fragment : A -> list jsstring) (keep : A -> bool)
  (s : option (upstream_stream A)) :
  (forall a, keep a = false -> fragment a = []) ->
  drain fragment (option_map (strip_stream keep) s) = drain fragment s.
Proof.
  intros Hk. destruct s as [[es i]|]; [|reflexivity].
  unfold drain, strip_stream, finish_of. cbn [option_map events interrupted].
  now rewrite flat_map_filter_text.
Qed.

(** X13.  Events that carry no text never reach the caller: with the
    OpenAI chunks whose first choice has no content, the Anthropic events
    other than text deltas and the Gemini chunks with an empty text taken
    out of the backend's stream, [streamChatResponse] makes the same call
    and yields the same fragments, and the route answers the same. *)
Theorem events_without_text_are_ignored (up : Upstream)
  (messages : list ChatMessage) (provider : jsstring)
  (options : option GenerationOptions) (request : NextRequest) :
  streamChatResponse (text_only up) messages provider options
    = streamChatResponse up messages provider options
  /\ POST (text_only up) request = POST up request.
Proof.
  assert (Hs : forall messages provider options,
    streamChatResponse (text_only up) messages provider options
      = streamChatResponse up messages provider options).
  { clear. intros messages provider options. unfold streamChatResponse.
    destruct (jsstring_eqb provider (lit "openai")).
    { cbn [text_only openai_create_stream]. rewrite drain_strip; [reflexivity|].
      intros [|[[|c t]|] r]; try reflexivity. discriminate. }
    destruct (jsstring_eqb provider (lit "anthropic")).
    { cbn [text_only anthropic_stream]. rewrite drain_strip; [reflexivity|].
      intros [[t|]|]; try reflexivity. discriminate. }
    destruct (jsstring_eqb provider (lit "google")); [|reflexivity].
    destruct (startChat_accepts (gemini_history messages)); [|reflexivity].
    destruct (lastMessage messages); [|reflexivity].
    cbn [text_only google_send_stream]. rewrite drain_strip; [reflexivity|].
    intros [|x t]; [reflexivity | discriminate]. }
  split; [apply Hs|]. unfold POST.
  destruct (userId request) as [[|c uid]|]; try reflexivity.
  destruct (json request) as [body|]; [|reflexivity].
  destruct (body_messages body); [reflexivity|]. now rewrite Hs.
Qed.

(** ** The route *)

(** The calls of [streamChatResponse], by cases. *)
Lemma stream_calls (up : Upstream) messages provider options :
  fst (streamChatResponse up messages provider options) = []
  \/ fst (streamChatResponse up messages provider options)
      = [openai_chat_completions_create (openai_request_of messages options true)]
  \/ fst (streamChatResponse up messages provider options)
      = [anthropic_messages_stream (anthropic_request_of messages options)]
  \/ exists lastMsg,
       fst (streamChatResponse up messages provider options)
       = [google_sendMessageStream (google_request_of messages options lastMsg)].
Proof.
  unfold streamChatResponse.
  destruct (jsstring_eqb provider (lit "openai")); [now right; left|].
  destruct (jsstring_eqb provider (lit "anthropic")); [now right; right; left|].
  destruct (jsstring_eqb provider (lit "google")); [|now left].
  destruct (startChat_accepts (gemini_history messages)); [|now left].
  destruct (lastMessage messages) as [m|]; [|now left].
  right; right; right. now exists m.
Qed.

Lemma POST_stream (up : Upstream) c uid body messages :
  body_messages body = AnArray messages ->
  POST up (mkRequest (Some (c :: uid)) (Some body))
    = (fst (streamChatResponse up messages (provider_of body)
              (Some (mkOptions (body_model body) None None))),
       let se := ReadableStream_start
                   (snd (streamChatResponse up messages (provider_of body)
                           (Some (mkOptions (body_model body) None None)))) in
       EventStream (fst se) (snd se)).
Proof.
  intros Hm. unfold POST, provider_of. cbn [userId json]. rewrite Hm.
  destruct (streamChatResponse up messages _ _) as [calls g]. cbn [fst snd].
  now destruct (ReadableStream_start g).
Qed.

(** The request shapes of [POST], by cases. *)
Lemma POST_cases (up : Upstream) (request : NextRequest) :
  POST up request = ([], NextResponse_json "Unauthorized" 401)
  \/ POST up request = ([], NextResponse_json "Internal server error" 500)
  \/ POST up request = ([], NextResponse_json "Messages array is required" 400)
  \/ exists c uid body messages,
       request = mkRequest (Some (c :: uid)) (Some body)
       /\ body_messages body = AnArray messages.
Proof.
  destruct request as [[[|c uid]|] [body|]]; try (now left).
  - destruct (body_messages body) as [|messages] eqn:E.
    + right; right; left. unfold POST. cbn [userId json]. now rewrite E.
    + right; right; right. now exists c, uid, body, messages.
  - right; left. reflexivity.
Qed.

(** X1.  The route answers with a JSON error only with status 401, 500 or
    400, and then without any upstream call.  A provider is contacted only
    for an authenticated request whose body parsed and holds an array as
    [messages]; the answer is then the event stream, and exactly one call
    was made. *)
Theorem route_contacts_upstream_once (up : Upstream) (request : NextRequest) :
  (forall message status,
     snd (POST up request) = NextResponse_json message status ->
     fst (POST up request) = []
     /\ (status = 401 \/ status = 500 \/ status = 400))
  /\ (fst (POST up request) <> [] ->
      (exists c uid body messages,
         request = mkRequest (Some (c :: uid)) (Some body)
         /\ body_messages body = AnArray messages)
      /\ List.length (fst (POST up request)) = 1%nat
      /\ exists enqueued ending,
           snd (POST up request) = EventStream enqueued ending).
Proof.
  destruct (POST_cases up request)
    as [E | [E | [E | (c & uid & body & messages & -> & Hm)]]];
    try (rewrite E; split;
         [intros message status [= <- <-]; split; [reflexivity | tauto]
         | intros H; now contradiction H]).
  rewrite (POST_stream up c uid body messages Hm). cbn [fst snd]. split.
  - intros message status H. discriminate H.
  - intros Hne. split; [now exists c, uid, body, messages|]. split.
    + destruct (stream_calls up messages (provider_of body)
                  (Some (mkOptions (body_model body) None None)))
        as [E | [E | [E | [m E]]]]; rewrite E in *;
        [now contradiction Hne | reflexivity | reflexivity | reflexivity].
    + eauto.
Qed.

Lemma route_contacts_upstream_once_witness :
  List.length
    (fst (POST quiet_upstream
            (authorized (mkRequestBody (AnArray [mkMessage user (lit "hi")])
                           (Some (lit "google")) None)))) = 1%nat.
Proof.
  refine (proj1 (proj2 (proj2 (route_contacts_upstream_once quiet_upstream
    (authorized (mkRequestBody (AnArray [mkMessage user (lit "hi")])
                   (Some (lit "google")) None))) _))).
  discriminate.
Defined.

(** X3.  Whatever the request body holds, every upstream call of the route
    is a streaming call with a limit of 1024 output tokens and, where the
    request carries a temperature, the temperature 0.7: the route passes
    only the model name on. *)
Theorem route_options_are_fixed (up : Upstream) (request : NextRequest)
  (call : upstream_call) :
  In call (fst (POST up request)) ->
  is_streaming_call call = true
  /\ call_max_tokens call = 1024
  /\ (call_temperature call = None \/ call_temperature call = Some (7 # 10)%Q).
Proof.
  destruct (POST_cases up request)
    as [E | [E | [E | (c & uid & body & messages & -> & Hm)]]];
    try (rewrite E; intros []).
  rewrite (POST_stream up c uid body messages Hm). cbn [fst].
  destruct (stream_calls up messages (provider_of body)
              (Some (mkOptions (body_model body) None None)))
    as [E | [E | [E | [m E]]]]; rewrite E; intros Hin;
    [destruct Hin | | | ]; destruct Hin as [<- | []]; cbn; auto.
Qed.

Lemma route_options_are_fixed_witness :
  call_max_tokens
    (anthropic_messages_stream
       (mkAnthropic (lit "claude-3-sonnet-20240229") 1024 None
          [mkMessage user (lit "hi")])) = 1024.
Proof.
  refine (proj1 (proj2 (route_options_are_fixed quiet_upstream
    (authorized (mkRequestBody (AnArray [mkMessage user (lit "hi")])
                   (Some (lit "anthropic")) None)) _ _))).
  left. reflexivity.
Defined.

(** No frame of a fragment is the terminal frame: they differ at the byte
    after the prefix. *)
Lemma frame_not_done chunk : frame chunk <> done_frame.
Proof.
  intros H. apply (f_equal (fun l => nth 6 l 0)) in H.
  cbv in H. discriminate H.
Qed.

Lemma done_not_in_frames fragments : ~ In done_frame (map frame fragments).
Proof.
  intros H. apply in_map_iff in H as (f & Hf & _). now apply frame_not_done in Hf.
Qed.

(** X2.  The event stream of the route is the frame of every fragment
    the generator yielded, in order, followed by the terminal frame exactly
    when the generator returned, and it is closed exactly then: when the
    generator throws, the stream errors with what was thrown, after the
    frames of the fragments yielded before, and carries no terminal frame.
    No fragment is framed as the terminal frame. *)
Theorem terminal_frame_iff_closed (up : Upstream) (request : NextRequest)
  (enqueued : list bytes) (outcome : controller_end) :
  snd (POST up request) = EventStream enqueued outcome ->
  exists c uid body messages,
    request = mkRequest (Some (c :: uid)) (Some body)
    /\ body_messages body = AnArray messages
    /\ let g := snd (streamChatResponse up messages (provider_of body)
                       (Some (mkOptions (body_model body) None None))) in
       enqueued = map frame (yielded g)
                  ++ match finish g with
                     | Returned _ => [done_frame]
                     | Threw _ => []
                     end
       /\ outcome = match finish g with
                    | Returned _ => Closed
                    | Threw e => Errored e
                    end
       /\ ~ In done_frame (map frame (yielded g))
       /\ (In done_frame enqueued <-> exists u, finish g = Returned u).
Proof.
  destruct (POST_cases up request)
    as [E | [E | [E | (c & uid & body & messages & -> & Hm)]]];
    try (rewrite E; discriminate).
  rewrite (POST_stream up c uid body messages Hm). cbn [snd].
  intros H. exists c, uid, body, messages.
  split; [reflexivity|]. split; [exact Hm|]. cbv zeta.
  set (g := snd (streamChatResponse up messages (provider_of body) _)) in *.
  unfold ReadableStream_start in H.
  destruct (finish g) as [u|e]; cbn [fst snd] in H; injection H as <- <-.
  - split; [reflexivity|]. split; [reflexivity|].
    split; [apply done_not_in_frames|]. split; [intros _; now exists u|].
    intros _. apply in_or_app. right. now left.
  - rewrite app_nil_r. split; [reflexivity|]. split; [reflexivity|].
    split; [apply done_not_in_frames|]. split.
    + intros H. now apply done_not_in_frames in H.
    + intros [u Hu]. discriminate Hu.
Qed.

Lemma terminal_frame_iff_closed_witness :
  exists c uid body messages,
    authorized (mkRequestBody (AnArray [mkMessage user (lit "hi")])
                  (Some (lit "anthropic")) None)
      = mkRequest (Some (c :: uid)) (Some body)
    /\ body_messages body = AnArray messages
    /\ let g := snd (streamChatResponse two_text_blocks messages (provider_of body)
                       (Some (mkOptions (body_model body) None None))) in
       [frame (lit "Hello "); frame (lit "world"); done_frame]
         = map frame (yielded g)
           ++ match finish g with
              | Returned _ => [done_frame]
              | Threw _ => []
              end
       /\ Closed = match finish g with
                   | Returned _ => Closed
                   | Threw e => Errored e
                   end
       /\ ~ In done_frame (map frame (yielded g))
       /\ (In done_frame [frame (lit "Hello "); frame (lit "world"); done_frame]
           <-> exists u, finish g = Returned u).
Proof.
  exact (terminal_frame_iff_closed two_text_blocks
           (authorized (mkRequestBody (AnArray [mkMessage user (lit "hi")])
                          (Some (lit "anthropic")) None))
           [frame (lit "Hello "); frame (lit "world"); done_frame] Closed
           eq_refl).
Defined.




(** ** The read loop on arbitrary input *)

Section ReadLoopInvariant.

Variable ts : JSON.value -> jsstring.

Lemma grown_refl st ms m : messages st = ms ++ [m] -> grown st ms m st.
Proof.
  intros Hm. exists [], []. split; [|constructor].
  rewrite !app_nil_r. destruct st, m. cbn in *. now subst.
Qed.

Lemma grown_trans st ms m st1 st2 :
  grown st ms m st1 ->
  (forall m1, messages st1 = ms ++ [m1] -> role m1 = role m ->
              grown st1 ms m1 st2) ->
  grown st ms m st2.
Proof.
  intros (t1 & e1 & -> & H1) H.
  destruct (H (mkMessage (role m) (content m ++ t1)) eq_refl eq_refl)
    as (t2 & e2 & -> & H2).
  exists (t1 ++ t2), (e1 ++ e2). cbn. split.
  - now rewrite !app_assoc.
  - now apply Forall_app.
Qed.

Lemma on_data_grown data st ms m :
  messages st = ms ++ [m] -> grown st ms m (on_data ts data st).
Proof.
  intros Hm. unfold on_data.
  assert (Herr : grown st ms m (console_error ErrorParsingJSONChunk st)).
  { exists [], [ErrorParsingJSONChunk]. split; [|repeat constructor].
    rewrite app_nil_r. unfold console_error. rewrite Hm. now destruct m. }
  destruct (JSON.parse data) as [parsed|]; [|exact Herr].
  destruct (destructure_content parsed) as [c|]; [|exact Herr].
  exists (ToString ts c), []. split; [|constructor].
  unfold setMessages. now rewrite Hm, append_to_last_snoc, app_nil_r.
Qed.

Lemma for_lines_grown lines : forall st ms m,
  messages st = ms ++ [m] -> grown st ms m (for_lines ts lines st).
Proof.
  induction lines as [|line rest IH]; intros st ms m Hm; [now apply grown_refl|].
  cbn [for_lines]. destruct (startsWith line (lit "data: ")); [|now apply IH].
  destruct (jsstring_eqb (slice 6 line) (lit "[DONE]")); [now apply grown_refl|].
  apply (grown_trans st ms m (on_data ts (slice 6 line) st));
    [now apply on_data_grown|].
  intros m1 Hm1 _. now apply IH.
Qed.

Lemma read_loop_grown values : forall decoder buffer st ms m,
  messages st = ms ++ [m] ->
  grown st ms m (read_loop ts values decoder buffer st).
Proof.
  induction values as [|v later IH]; intros decoder buffer st ms m Hm;
    [now apply grown_refl|].
  cbn [read_loop]. destruct (decode_stream decoder v) as [d' chunk].
  eapply grown_trans; [now apply for_lines_grown|].
  intros m1 Hm1 _. now apply IH.
Qed.


(** The handler on a state whose button is enabled. *)
Lemma handleSubmit_shape fetch st :
  submit_disabled st = false ->
  exists rest shown errors,
    handleSubmit ts fetch st
      = mkClientState (messages st ++ mkMessage user (input st) :: rest) []
          false (toasts st ++ shown) (console st ++ errors)
    /\ (rest = [] \/ exists text, rest = [mkMessage assistant text])
    /\ (List.length shown <= 1)%nat.
Proof.
  unfold submit_disabled. intros Hd. unfold handleSubmit.
  rewrite orb_comm, Hd.
  destruct fetch as [|status body].
  { exists [], [SomethingWentWrong], [ChatError]. cbn. auto. }
  destruct (response_ok status); cbn [negb].
  2:{ exists [], [if status =? 401 then MustBeLoggedIn else FailedToSendMessage], [].
      cbn. rewrite app_nil_r. auto. }
  destruct body as [b|].
  2:{ exists [], [SomethingWentWrong], [ChatError]. cbn. auto. }
  destruct (read_loop_grown (chunks b) new_TextDecoder []
              (setMessages (fun prev => prev ++ [assistantMessage])
                 (setIsLoading true
                    (setInput []
                       (setMessages (fun prev => prev ++ [mkMessage user (input st)]) st))))
              (messages st ++ [mkMessage user (input st)]) assistantMessage
              eq_refl) as (text & errors & -> & _).
  cbn [setMessages setInput setIsLoading messages input isLoading toasts console
       assistantMessage role content app].
  destruct (ending b).
  - exists [mkMessage assistant text], [], errors. cbn.
    rewrite <- app_assoc, app_nil_r.
    split; [reflexivity|]. split; [right; now exists text | lia].
  - exists [mkMessage assistant text], [SomethingWentWrong], (errors ++ [ChatError]).
    unfold catch_chat_error, toast_error, console_error, setIsLoading. cbn.
    rewrite <- !app_assoc.
    split; [reflexivity|]. split; [right; now exists text | lia].
Qed.


(** X8.  The submit button is disabled exactly in the states in which the
    handler does nothing: with the flag set or a blank input the state is
    returned as it is, and otherwise the user message is pushed and the
    input is cleared. *)
Theorem button_guards_handler (fetch : fetch_outcome) (st : ClientState) :
  (submit_disabled st = true <-> handleSubmit ts fetch st = st)
  /\ (submit_disabled st = false ->
      input (handleSubmit ts fetch st) = []
      /\ exists rest,
           messages (handleSubmit ts fetch st)
             = messages st ++ mkMessage user (input st) :: rest).
Proof.
  destruct (submit_disabled st) eqn:Hd.
  - split; [|discriminate]. split; [intros _|reflexivity].
    unfold handleSubmit. unfold submit_disabled in Hd. now rewrite orb_comm, Hd.
  - destruct (handleSubmit_shape fetch st Hd) as (rest & shown & errors & E & _).
    split.
    + split; [discriminate|]. intros H. rewrite H in E.
      apply (f_equal (fun s => List.length (messages s))) in E.
      cbn in E. rewrite length_app in E. cbn in E. lia.
    + intros _. rewrite E. cbn. eauto.
Qed.

End ReadLoopInvariant.



Lemma button_guards_handler_witness :
  input (handleSubmit no_other (FetchResponse 500 None) example_state) = [].
Proof.
  exact (proj1 (proj2 (button_guards_handler no_other (FetchResponse 500 None)
                         example_state) eq_refl)).
Defined.

Section Rendering.

Variable ts : JSON.value -> jsstring.

Lemma lastMessage_snoc (ms : list Message) (m : Message) :
  lastMessage (ms ++ [m]) = Some m.
Proof.
  rewrite (lastMessage_last (ms ++ [m]) m) by now destruct ms.
  now rewrite last_last.
Qed.

(** X9.  The "Writing..." bubble shows from the submit until the response
    arrives: it shows in the state the handler leaves while [fetch] is
    pending, it is hidden from the moment the assistant message is pushed,
    whatever the body then delivers, and it is hidden when the handler has
    finished.  The "Start a conversation" placeholder is gone with the
    submit. *)
Theorem writing_bubble (st : ClientState) (values : list bytes)
  (fetch : fetch_outcome) :
  show_writing (submitted st) = true
  /\ show_writing
       (read_loop ts values new_TextDecoder [] (answered st [] true)) = false
  /\ (isLoading st = false -> show_writing (handleSubmit ts fetch st) = false)
  /\ show_placeholder (submitted st) = false
  /\ (submit_disabled st = false ->
      show_placeholder (handleSubmit ts fetch st) = false).
Proof.
  split; [|split; [|split; [|split]]].
  - unfold show_writing, submitted, setIsLoading, setInput, setMessages.
    cbn [messages isLoading andb]. now rewrite lastMessage_snoc.
  - destruct (read_loop_grown ts values new_TextDecoder [] (answered st [] true)
                (messages st ++ [mkMessage user (input st)])
                (mkMessage assistant []))
      as (text & errors & -> & _).
    { unfold answered. cbn [messages]. now rewrite <- app_assoc. }
    unfold show_writing. cbn [messages isLoading]. now rewrite lastMessage_snoc.
  - intros Hl. unfold show_writing. destruct (submit_disabled st) eqn:Hd.
    + unfold handleSubmit. unfold submit_disabled in Hd.
      now rewrite orb_comm, Hd, Hl.
    + destruct (handleSubmit_shape ts fetch st Hd) as (r & s & e & -> & _).
      reflexivity.
  - unfold show_placeholder, submitted. cbn. now destruct (messages st).
  - intros Hd. destruct (handleSubmit_shape ts fetch st Hd) as (r & s & e & -> & _).
    unfold show_placeholder. cbn. now destruct (messages st).
Qed.

(** The console aside, the loop does not look at what was logged. *)
Lemma for_lines_console lines : forall ms i l t c,
  for_lines ts lines (mkClientState ms i l t c)
    = let r := for_lines ts lines (mkClientState ms i l t []) in
      mkClientState (messages r) (input r) (isLoading r) (toasts r)
        (c ++ console r).
Proof.
  induction lines as [|line rest IH]; intros ms i l t c.
  - cbn. now rewrite app_nil_r.
  - cbn [for_lines]. destruct (startsWith line (lit "data: ")); [|apply IH].
    destruct (jsstring_eqb (slice 6 line) (lit "[DONE]")).
    { cbn. now rewrite app_nil_r. }
    unfold on_data. destruct (JSON.parse (slice 6 line)) as [parsed|].
    + destruct (destructure_content parsed) as [v|].
      * unfold setMessages. cbn [messages input isLoading toasts console].
        apply IH.
      * unfold console_error. cbn [messages input isLoading toasts console].
        rewrite IH. rewrite (IH ms i l t ([] ++ [ErrorParsingJSONChunk])).
        cbn. now rewrite <- app_assoc.
    + unfold console_error. cbn [messages input isLoading toasts console].
      rewrite IH. rewrite (IH ms i l t ([] ++ [ErrorParsingJSONChunk])).
      cbn. now rewrite <- app_assoc.
Qed.

Lemma for_lines_console_error lines st e :
  messages (for_lines ts lines (console_error e st))
    = messages (for_lines ts lines st).
Proof.
  destruct st as [ms i l t c]. unfold console_error.
  cbn [messages input isLoading toasts console].
  rewrite for_lines_console. rewrite (for_lines_console lines ms i l t c).
  reflexivity.
Qed.

(** X10.  Lines that are no data frames, frames whose payload is not
    valid JSON and frames whose payload is [null] leave the messages alone:
    the loop ends with the messages it ends with when those lines are
    taken out, so a corrupt frame costs only itself. *)
Theorem inert_lines_change_nothing (lines : list jsstring) (st : ClientState) :
  messages (for_lines ts lines st)
    = messages (for_lines ts (filter (fun l => negb (is_inert l)) lines) st).
Proof.
  revert st. induction lines as [|line rest IH]; intros st; [reflexivity|].
  cbn [filter]. unfold is_inert. cbn [for_lines].
  destruct (startsWith line (lit "data: ")) eqn:Hp; cbn [negb]; [|apply IH].
  destruct (jsstring_eqb (slice 6 line) (lit "[DONE]")) eqn:Hs; cbn [negb andb].
  { cbn [for_lines]. now rewrite Hp, Hs. }
  unfold on_data.
  destruct (JSON.parse (slice 6 line)) as [parsed|] eqn:Hj; cbn [negb].
  - destruct (destructure_content parsed) as [v|] eqn:Hc; cbn [negb].
    + cbn [for_lines]. rewrite Hp, Hs. unfold on_data. rewrite Hj, Hc. apply IH.
    + rewrite for_lines_console_error. apply IH.
  - rewrite for_lines_console_error. apply IH.
Qed.

End Rendering.

Lemma writing_bubble_witness :
  show_writing (handleSubmit no_other FetchRejected example_state) = false.
Proof.
  exact (proj1 (proj2 (proj2 (writing_bubble no_other example_state []
                                FetchRejected))) eq_refl).
Defined.

(** ** From the route to the client *)

Lemma frames_text_well_formed fragments :
  Forall js_string fragments -> well_formed (frames_text fragments).
Proof.
  unfold frames_text. induction 1 as [|f fs Hf _ IH]; cbn [map List.concat].
  - constructor.
  - apply well_formed_app; [|exact IH].
    apply well_formed_app; [now apply data_line_spec | exact blank_line_well_formed].
Qed.

Lemma frames_bytes_encode fragments :
  Forall js_string fragments ->
  List.concat (map frame fragments) = UTF8.encode (frames_text fragments).
Proof.
  unfold frames_text. induction 1 as [|f fs Hf Hfs IH]; cbn [map List.concat].
  - reflexivity.
  - rewrite IH, frame_encodes. symmetry. apply encode_app.
    apply well_formed_app; [now apply data_line_spec | exact blank_line_well_formed].
Qed.

Lemma split_frames_text fragments :
  Forall js_string fragments ->
  split blank_line (frames_text fragments) = map data_line fragments ++ [[]].
Proof.
  unfold frames_text. induction 1 as [|f fs Hf _ IH]; cbn [map List.concat app].
  - reflexivity.
  - rewrite <- app_assoc.
    rewrite split_line_blank by now apply data_line_spec. now rewrite IH.
Qed.

Lemma decode_frames_bytes fragments :
  Forall js_string fragments ->
  snd (decode_stream new_TextDecoder (List.concat (map frame fragments)))
    = frames_text fragments.
Proof.
  intros Hs. rewrite frames_bytes_encode by exact Hs.
  pose proof (frames_text_well_formed fragments Hs) as Hw.
  destruct fragments as [|f fs]; [reflexivity|].
  assert (E : exists s, frames_text (f :: fs) = 100 :: s).
  { unfold frames_text, data_line. cbn [map List.concat lit list_ascii_of_string app].
    eexists. reflexivity. }
  destruct E as [s E]. rewrite E in *.
  rewrite decode_encode; [reflexivity | lia | exact Hw].
Qed.

Lemma in_removelast {A : Type} (x : A) (l : list A) :
  In x (removelast l) -> In x l.
Proof.
  induction l as [|a l IH]; [intros []|].
  destruct l as [|b l]; [intros []|].
  change (removelast (a :: b :: l)) with (a :: removelast (b :: l)).
  intros [-> | H]; [now left | right; now apply IH].
Qed.

Section RouteToClient.

Variable ts : JSON.value -> jsstring.

(** The loop on the frames without the terminal frame, in any chunking. *)
Lemma read_loop_frames_chunked values fragments st :
  Forall js_string fragments ->
  List.concat values = List.concat (map frame fragments) ->
  read_loop ts values new_TextDecoder [] st
    = fold_left (fun st f => setMessages (append_to_last f) st) fragments st.
Proof.
  intros Hs Hv.
  assert (Hsplit : removelast (split blank_line (frames_text fragments))
                   = map data_line fragments).
  { rewrite split_frames_text by exact Hs. apply removelast_last. }
  rewrite read_loop_chunking.
  - cbn [read_loop].
    pose proof (decode_frames_bytes fragments Hs) as Hd. rewrite <- Hv in Hd.
    destruct (decode_stream new_TextDecoder (List.concat values)) as [d text].
    cbn [snd] in Hd. subst text. cbn [app]. rewrite Hsplit.
    rewrite <- (app_nil_r (map data_line fragments)).
    now rewrite for_lines_data_lines.
  - rewrite Hv, decode_frames_bytes, Hsplit by exact Hs.
    apply Forall_forall. intros l Hl. apply in_removelast in Hl.
    apply in_map_iff in Hl as (f & <- & _). apply data_line_not_sentinel.
Qed.

Lemma submit_enabled st :
  submit_disabled st = false ->
  trim_is_empty (input st) = false /\ isLoading st = false.
Proof. unfold submit_disabled. intros H. apply orb_false_iff in H. tauto. Qed.

(** X4.  What the generator yields is what the client shows.  For an
    authenticated request with an array of messages, whose fragments are
    JavaScript strings, the body of the route's event stream, delivered in
    any chunking, leaves the assistant message with the concatenation of
    the fragments the generator yielded: with nothing reported when the
    generator returned, and with the partial text kept and the failure
    reported when it threw and the stream errored. *)
Theorem route_to_client (up : Upstream) (c : N) (uid : jsstring)
  (body : RequestBody) (messages : list ChatMessage)
  (enqueued values : list bytes) (outcome : controller_end) (st : ClientState) :
  let g := snd (streamChatResponse up messages (provider_of body)
                  (Some (mkOptions (body_model body) None None))) in
  body_messages body = AnArray messages ->
  Forall js_string (yielded g) ->
  snd (POST up (mkRequest (Some (c :: uid)) (Some body)))
    = EventStream enqueued outcome ->
  List.concat values = List.concat enqueued ->
  submit_disabled st = false ->
  handleSubmit ts
    (FetchResponse 200 (Some (mkBodyStream values (transport_end outcome)))) st
  = match outcome with
    | Closed => answered st (List.concat (yielded g)) false
    | Errored _ =>
        toast_error SomethingWentWrong
          (console_error ChatError (answered st (List.concat (yielded g)) false))
    end.
Proof.
  intros g Hm Hs Hp Hv Hd. destruct (submit_enabled st Hd) as [Hi Hl].
  rewrite (POST_stream up c uid body messages Hm) in Hp. cbn [snd] in Hp.
  fold g in Hp. unfold ReadableStream_start in Hp.
  rewrite handleSubmit_reads by assumption. cbn [chunks ending].
  destruct (finish g) as [u|e]; cbn [fst snd] in Hp; injection Hp as <- <-;
    cbn [transport_end].
  - rewrite (read_loop_framed ts values (yielded g)), fragments_answered;
      [reflexivity | exact Hs | exact Hv].
  - rewrite (read_loop_frames_chunked values (yielded g)), fragments_answered;
      [reflexivity | exact Hs | exact Hv].
Qed.

(** X5.  Every JSON error of the route becomes one toast and no assistant
    message: the client pushes the user message, clears the input and the
    loading flag, and shows "You must be logged in to chat." exactly when
    the request carried no user id, and "Failed to send message." for the
    unparsable body and for [messages] that is no array. *)
Theorem route_errors_become_toasts (up : Upstream) (request : NextRequest)
  (message : string) (status : N) (body : option body_stream)
  (st : ClientState) :
  snd (POST up request) = NextResponse_json message status ->
  submit_disabled st = false ->
  handleSubmit ts (FetchResponse status body) st
    = mkClientState (messages st ++ [mkMessage user (input st)]) [] false
        (toasts st
         ++ [if status =? 401 then MustBeLoggedIn else FailedToSendMessage])
        (console st)
  /\ (status = 401 <-> userId request = None \/ userId request = Some []).
Proof.
  intros Hp Hd. destruct (submit_enabled st Hd) as [Hi Hl].
  assert (Hst : (status = 401
                 /\ (userId request = None \/ userId request = Some []))
                \/ ((status = 500 \/ status = 400)
                    /\ exists x uid, userId request = Some (x :: uid))).
  { destruct request as [[[|x uid]|] [b|]]; cbn in Hp;
      try (injection Hp as <- <-; left; split; [reflexivity | tauto]).
    - destruct (body_messages b) as [|msgs].
      + injection Hp as <- <-. right. split; [now right | now exists x, uid].
      + destruct (streamChatResponse up msgs _ _) as [calls g].
        destruct (ReadableStream_start g). discriminate Hp.
    - injection Hp as <- <-. right. split; [now left | now exists x, uid]. }
  split.
  - unfold handleSubmit. rewrite Hi, Hl. cbn [orb].
    assert (Hok : response_ok status = false)
      by (destruct Hst as [[-> _] | [[-> | ->] _]]; reflexivity).
    rewrite Hok. reflexivity.
  - destruct Hst as [[-> Hu] | [Hs (x & uid & Hu)]].
    + tauto.
    + split.
      * intros ->. destruct Hs; discriminate.
      * rewrite Hu. intros [H | H]; discriminate H.
Qed.

End RouteToClient.

Lemma route_to_client_witness :
  handleSubmit no_other
    (FetchResponse 200
       (Some (mkBodyStream
                [firstn 10 (framed_bytes [lit "Hello "; lit "world"]);
                 skipn 10 (framed_bytes [lit "Hello "; lit "world"])]
                EndOfInput)))
    example_state
  = answered example_state (lit "Hello world") false.
Proof.
  refine (route_to_client no_other two_text_blocks 117 (lit "ser_1")
            (mkRequestBody (AnArray [mkMessage user (lit "hi")])
               (Some (lit "anthropic")) None)
            [mkMessage user (lit "hi")]
            [frame (lit "Hello "); frame (lit "world"); done_frame]
            [firstn 10 (framed_bytes [lit "Hello "; lit "world"]);
             skipn 10 (framed_bytes [lit "Hello "; lit "world"])]
            Closed example_state eq_refl _ eq_refl _ eq_refl).
  - now apply js_strings_check.
  - cbn [List.concat]. rewrite app_nil_r. apply firstn_skipn.
Defined.

Lemma route_errors_become_toasts_witness :
  handleSubmit no_other (FetchResponse 401 None) example_state
  = mkClientState [mkMessage user (lit "hello")] [] false [MustBeLoggedIn] [].
Proof.
  exact (proj1 (route_errors_become_toasts no_other quiet_upstream
                  (mkRequest None None) "Unauthorized" 401 None example_state
                  eq_refl eq_refl)).
Defined.

(** ** The playground's request at the route *)

Lemma starts_with_user_sent (conversation : list Message) (text : jsstring) :
  starts_with_user conversation
  <-> history_accepted (conversation ++ [mkMessage user text]).
Proof.
  destruct conversation as [|first [|second rest]]; cbn; tauto.
Qed.

Lemma handleSubmit_starts_with_user ts fetch st :
  starts_with_user (messages st) ->
  starts_with_user (messages (handleSubmit ts fetch st)).
Proof.
  intros Hs. destruct (submit_disabled st) eqn:Hd.
  - assert (E : handleSubmit ts fetch st = st).
    { unfold handleSubmit. unfold submit_disabled in Hd. now rewrite orb_comm, Hd. }
    now rewrite E.
  - destruct (handleSubmit_shape ts fetch st Hd) as (rest & shown & errors & -> & _).
    cbn [messages]. destruct (messages st); [reflexivity | exact Hs].
Qed.

(** X17.  The request the playground posts holds an array that ends with
    the user message and names the provider.  While the conversation on the
    page is empty or begins with a user message, as it does at first and
    after every submit, the authenticated request is dispatched: the route
    answers with the event stream after exactly one upstream call with the
    adapter's default model, and neither the [TypeError] of the empty list
    nor the history error can arise; for google the text typed is the
    prompt and the conversation so far is the history.  From a conversation
    that begins otherwise the google request reaches no backend and the
    stream errors at once. *)
Theorem playground_request_is_dispatched (up : Upstream) (c : N) (uid : jsstring)
  (st : ClientState) (p : Provider) :
  let sent := messages st ++ [mkMessage user (input st)] in
  let response := POST up (mkRequest (Some (c :: uid)) (Some (request_body st p))) in
  (starts_with_user (messages st) ->
   fst response
     = match p with
       | p_openai =>
           [openai_chat_completions_create
              (mkOpenAI (lit "gpt-3.5-turbo") sent 1024 (7 # 10)%Q true)]
       | p_anthropic =>
           [anthropic_messages_stream
              (mkAnthropic (lit "claude-3-sonnet-20240229") 1024
                 (systemMessage_content sent) (otherMessages sent))]
       | p_google =>
           [google_sendMessageStream
              (mkGoogle (lit "gemini-flash-latest")
                 (map (fun m =>
                         mkGemini
                           (match role m with user => gemini_user | _ => gemini_model end)
                           [content m])
                    (messages st))
                 1024 (7 # 10)%Q (input st))]
       end
   /\ exists enqueued ending, snd response = EventStream enqueued ending)
  /\ (~ starts_with_user (messages st) ->
      p = p_google ->
      response = ([], EventStream [] (Errored GoogleGenerativeAIError)))
  /\ (forall ts fetch,
        starts_with_user (messages st) ->
        starts_with_user (messages (handleSubmit ts fetch st))).
Proof.
  cbv zeta. rewrite (POST_stream up c uid (request_body st p) _ eq_refl).
  cbn [fst snd]. split; [|split].
  - intros Hs. split; [|eauto].
    destruct p; unfold streamChatResponse, provider_of, request_body;
      cbn [body_provider body_model provider_name].
    + reflexivity.
    + cbn [jsstring_eqb lit]. cbn [fst]. unfold anthropic_request_of. cbn.
      f_equal. f_equal. f_equal.
      induction (otherMessages _) as [|[r t] l IH]; [reflexivity|].
      cbn [map]. now rewrite IH.
    + destruct provider_google_dispatch as (-> & -> & ->).
      assert (Ha : startChat_accepts
                     (gemini_history (messages st ++ [mkMessage user (input st)]))
                   = true).
      { apply startChat_accepts_history. now apply starts_with_user_sent. }
      rewrite Ha.
      rewrite (lastMessage_last _ (mkMessage user (input st)))
        by (now destruct (messages st)).
      cbn [fst]. unfold google_request_of, gemini_history.
      now rewrite last_last, removelast_last.
  - intros Hn ->. unfold streamChatResponse, provider_of, request_body.
    cbn [body_provider body_model provider_name].
    destruct provider_google_dispatch as (-> & -> & ->).
    assert (Hr : startChat_accepts
                   (gemini_history (messages st ++ [mkMessage user (input st)]))
                 = false).
    { apply startChat_rejects_history. intros H. apply Hn.
      now apply starts_with_user_sent in H. }
    rewrite Hr. reflexivity.
  - intros ts fetch. apply handleSubmit_starts_with_user.
Qed.

Lemma playground_request_is_dispatched_witness :
  fst (POST quiet_upstream
         (mkRequest (Some (lit "u1")) (Some (request_body example_state p_google))))
    = [google_sendMessageStream
         (mkGoogle (lit "gemini-flash-latest") [] 1024 (7 # 10)%Q (lit "hello"))]
  /\ exists enqueued ending,
       snd (POST quiet_upstream
              (mkRequest (Some (lit "u1")) (Some (request_body example_state p_google))))
         = EventStream enqueued ending.
Proof.
  exact (proj1 (playground_request_is_dispatched quiet_upstream 117 (lit "1")
                  example_state p_google) I).
Defined.

(** ** The vector store helper *)

(** X14.  Writing, deleting and querying address the index named by the
    environment, and [upsertVectors] and [deleteVectors] always address the
    same namespace.  [querySimilarVectors] addresses that namespace too,
    except for the empty string: the writers replace it by "default", the
    query passes it on as it is. *)
Theorem namespaces_agree (sv : VectorDB.Services)
  (vectors : list VectorDB.vector) (ids : list jsstring) (queryVector : list Q)
  (ns : option jsstring) (k : option N) (f : option VectorDB.record)
  (im : option bool) :
  let written := fst (VectorDB.upsertVectors sv vectors ns) in
  let deleted := fst (VectorDB.deleteVectors sv ids ns) in
  let queried :=
    fst (VectorDB.querySimilarVectors sv queryVector
           (Some (VectorDB.mkQueryOptions k ns f im))) in
  map VectorDB.call_namespace written = map VectorDB.call_namespace deleted
  /\ (map VectorDB.call_namespace written = map VectorDB.call_namespace queried
      <-> ns <> Some [])
  /\ map VectorDB.call_index written = [Some (VectorDB.PINECONE_INDEX sv)]
  /\ map VectorDB.call_index deleted = [Some (VectorDB.PINECONE_INDEX sv)]
  /\ map VectorDB.call_index queried = [Some (VectorDB.PINECONE_INDEX sv)].
Proof.
  cbn. repeat split; try reflexivity.
  - intros H E. subst ns. discriminate H.
  - intros H. destruct ns as [[|c n]|]; [now contradiction H | reflexivity | reflexivity].
Qed.

(** X15.  [semanticSearch] asks for one embedding of the text, with the
    model "text-embedding-3-small", and then, only when the response holds
    an embedding, queries once with the first embedding of the response,
    always with metadata included, whatever the options say; the other
    options are handled as [querySimilarVectors] handles them.  When the
    request is rejected or the response holds no embedding it throws
    without a query.  It never writes or deletes. *)
Theorem semanticSearch_calls (sv : VectorDB.Services) (text : jsstring)
  (options : option VectorDB.query_options) :
  let model := lit "text-embedding-3-small" in
  fst (VectorDB.semanticSearch sv text options)
    = VectorDB.embeddings_create model text
      :: match VectorDB.embeddings sv model text with
         | Some (embedding :: _) =>
             map (fun c =>
                    match c with
                    | VectorDB.query i ns r =>
                        VectorDB.query i ns
                          (VectorDB.mkQuery (VectorDB.q_vector r)
                             (VectorDB.q_topK r) (VectorDB.q_filter r) true)
                    | other => other
                    end)
               (fst (VectorDB.querySimilarVectors sv embedding options))
         | _ => []
         end
  /\ (forall c, In c (fst (VectorDB.semanticSearch sv text options)) ->
      match c with
      | VectorDB.embeddings_create _ _ => True
      | VectorDB.query _ _ r => VectorDB.q_includeMetadata r = true
      | _ => False
      end)
  /\ (match VectorDB.embeddings sv model text with
      | None => snd (VectorDB.semanticSearch sv text options) = Threw UpstreamError
      | Some [] => snd (VectorDB.semanticSearch sv text options) = Threw TypeError
      | Some (_ :: _) => True
      end).
Proof.
  cbv zeta. unfold VectorDB.semanticSearch, VectorDB.generateEmbedding.
  destruct (VectorDB.embeddings sv (lit "text-embedding-3-small") text)
    as [[|embedding rest]|].
  - split; [reflexivity|]. split; [|reflexivity].
    intros c [<- | []]. exact I.
  - destruct options as [[k ns f im]|]; cbn; (split; [reflexivity|]);
      (split; [|exact I]); intros c [<- | [<- | []]]; try exact I; reflexivity.
  - split; [reflexivity|]. split; [|reflexivity].
    intros c [<- | []]. exact I.
Qed.
